(** * Cloudflare clearance-cookie cache and proxy resolution

    A shallow embedding of [src/services/cf_cookie_manager.py] and
    [src/services/proxy_manager.py].

    - Python dicts are stdpp [gmap]s; [Dict[str, str]] is [gmap string string].
    - [time.time()] readings are rationals.  Every float is a rational and,
      for two readings within a factor two of each other, the float
      subtraction [time.time() - ts] is exact, so the comparison with
      [CACHE_TTL] is the one on rationals.
    - An [asyncio.Lock] is identified by its key in [_locks]; its state is
      the boolean that [Lock.locked()] returns.
    - [_fetch_cookies_via_browser] drives a browser; its result comes from
      an oracle and every invocation is recorded in a history.
    - A coroutine running [get_cookies] is a program point together with
      its live local variables; the code between two program points is one
      function. *)

From Stdlib Require Import QArith Lqa Ascii.
From stdpp Require Import gmap strings list fin_maps.

Local Open Scope Q_scope.

(** ** Python truthiness of an [Optional[str]] *)

Definition truthy (s : option string) : bool :=
  match s with
  | Some s => if decide (s = ""%string) then false else true
  | None => false
  end.

(** Strict comparison on rationals, as a boolean. *)
Definition Qltb (x y : Q) : bool := negb (Qle_bool y x).

Module CfCookie.

(** [(cookies_dict, user_agent)]: the value of a successful fetch. *)
Abbreviation fetched := (gmap string string * string)%type.

(** [(cookies_dict, user_agent, timestamp)]: a cache entry. *)
Abbreviation entry := (gmap string string * string * Q)%type.

(** Line 33. *)
Definition CACHE_TTL : Q := 600.

(** Lines 35-39.  [_global_lock] is taken and released inside [_get_lock],
    whose body has no suspension point: it is free whenever a coroutine is
    resumed, and [_get_lock] is one atomic step. *)
Record CfCookieManager := Manager {
  _cache : gmap string entry;
  _locks : gmap string bool;
}.

(** What a run leaves behind for an observer: lock operations and calls of
    [_fetch_cookies_via_browser], oldest first. *)
Inductive event :=
| LockCreated (key : string)
| LockAcquired (key : string)
| LockReleased (key : string)
| BrowserFetch (proxy_url : option string).

Record world := World {
  self : CfCookieManager;
  history : list event;
}.

(** Program points of a coroutine running [get_cookies]. *)
Inductive coroutine :=
| Created (proxy_url : option string) (force_refresh : bool)
    (* called, nothing executed yet *)
| AtLock (proxy_url : option string) (force_refresh : bool)
    (* line 79, before [async with lock] is entered *)
| AtFetch (proxy_url : option string)
    (* line 86, awaiting the browser, the key's lock held *)
| Returned (result : option fetched)
| Raised (exc : string).

(** Line 42: [proxy_url or "__no_proxy__"]. *)
Definition _proxy_key (proxy_url : option string) : string :=
  match proxy_url with
  | Some s => if truthy proxy_url then s else "__no_proxy__"%string
  | None => "__no_proxy__"%string
  end.

(** Lines 50-54. *)
Definition _is_valid (m : CfCookieManager) (now : Q) (key : string) : bool :=
  match _cache m !! key with
  | None => false
  | Some (_, _, ts) => Qltb (now - ts) CACHE_TTL
  end.

Definition emit (w : world) (e : event) : world :=
  World (self w) (history w ++ [e]).

Definition set_lock (w : world) (key : string) (locked : bool) : world :=
  World (Manager (_cache (self w)) (<[key := locked]> (_locks (self w))))
        (history w).

(** Lines 44-48: the lock of [key], created unlocked on first use. *)
Definition _get_lock (w : world) (key : string) : world :=
  match _locks (self w) !! key with
  | None => emit (set_lock w key false) (LockCreated key)
  | Some _ => w
  end.

(** Entering and leaving [async with lock]. *)
Definition lock_acquire (w : world) (key : string) : world :=
  emit (set_lock w key true) (LockAcquired key).

Definition lock_release (w : world) (key : string) : world :=
  emit (set_lock w key false) (LockReleased key).

(** Line 89: [self._cache[key] = (cookies, ua, time.time())]. *)
Definition cache_store (w : world) (key : string) (e : entry) : world :=
  World (Manager (<[key := e]> (_cache (self w))) (_locks (self w)))
        (history w).

(** Lines 73-75 and 82-83: [cookies, ua, _ = self._cache[key]]. *)
Definition cache_read (w : world) (key : string) : coroutine :=
  match _cache (self w) !! key with
  | Some (cookies, ua, _) => Returned (Some (cookies, ua))
  | None => Raised "KeyError"
  end.

Section GetCookies.

(** Lines 10-14: whether the import of playwright succeeded. *)
Variable PLAYWRIGHT_AVAILABLE : bool.

(** Lines 65-78: from the call to the lock of the key. *)
Definition start (w : world) (now : Q)
    (proxy_url : option string) (force_refresh : bool) : world * coroutine :=
  if negb PLAYWRIGHT_AVAILABLE then (w, Returned None)
  else
    let key := _proxy_key proxy_url in
    if negb force_refresh && _is_valid (self w) now key
    then (w, cache_read w key)
    else (_get_lock w key, AtLock proxy_url force_refresh).

(** Lines 79-86: enter the lock, check again, call the browser.  [None]
    when the lock is held: the coroutine stays suspended. *)
Definition enter (w : world) (now : Q)
    (proxy_url : option string) (force_refresh : bool)
    : option (world * coroutine) :=
  let key := _proxy_key proxy_url in
  match _locks (self w) !! key with
  | Some false =>
      let w := lock_acquire w key in
      if negb force_refresh && _is_valid (self w) now key
      then Some (lock_release w key, cache_read w key)
      else Some (emit w (BrowserFetch proxy_url), AtFetch proxy_url)
  | _ => None
  end.

(** Lines 87-94: the browser has answered; leave the lock. *)
Definition finish (w : world) (now : Q)
    (proxy_url : option string) (result : option fetched) : world * coroutine :=
  let key := _proxy_key proxy_url in
  match result with
  | Some (cookies, ua) =>
      let w := cache_store w key (cookies, ua, now) in
      (lock_release w key, Returned (Some (cookies, ua)))
  | None => (lock_release w key, Returned None)
  end.

(** What one call meets: the clock at lines 72, 81 and 89, and the answer
    of [_fetch_cookies_via_browser]. *)
Record oracle := Oracle {
  t_check : Q;
  t_recheck : Q;
  t_store : Q;
  browser : option fetched;
}.

(** Lines 56-94, for a call that nothing interleaves with.  A result
    [AtLock] means that the call is suspended on a lock that is held. *)
Definition get_cookies (w : world) (o : oracle)
    (proxy_url : option string) (force_refresh : bool) : world * coroutine :=
  match start w (t_check o) proxy_url force_refresh with
  | (w1, AtLock p f) =>
      match enter w1 (t_recheck o) p f with
      | Some (w2, AtFetch p) => finish w2 (t_store o) p (browser o)
      | Some done => done
      | None => (w1, AtLock p f)
      end
  | done => done
  end.

End GetCookies.

(** Lines 203-208. *)
Definition invalidate (w : world) (proxy_url : option string) : world :=
  let key := _proxy_key proxy_url in
  match _cache (self w) !! key with
  | Some _ => World (Manager (delete key (_cache (self w))) (_locks (self w)))
                    (history w)
  | None => w
  end.

(** Lines 210-213. *)
Definition invalidate_all (w : world) : world :=
  World (Manager ∅ (_locks (self w))) (history w).

(** Line 217: the manager as constructed. *)
Definition cf_cookie_manager : world := World (Manager ∅ ∅) [].

(** The calls of [_fetch_cookies_via_browser] in a history. *)
Definition fetches (h : list event) : list (option string) :=
  omap (fun e => match e with BrowserFetch p => Some p | _ => None end) h.

(** What a call that took the manager from [w] to [w'] added to the
    history. *)
Definition new_events (w w' : world) : list event :=
  drop (length (history w)) (history w').

(** What [_get_lock] adds to the history. *)
Definition created (w : world) (key : string) : list event :=
  match _locks (self w) !! key with
  | None => [LockCreated key]
  | Some _ => []
  end.

(** The five ways through [get_cookies]: the guard of line 65, the cache
    hit of line 72, the wait at line 79, the hit of line 81 under the
    lock, and the call of the browser at line 86. *)
Inductive path (PW : bool) (w : world) (o : oracle)
    (proxy_url : option string) (force_refresh : bool)
    : world * coroutine -> Prop :=
| path_unavailable :
    PW = false ->
    path PW w o proxy_url force_refresh (w, Returned None)
| path_hit cookies ua ts :
    PW = true -> force_refresh = false ->
    _cache (self w) !! _proxy_key proxy_url = Some (cookies, ua, ts) ->
    t_check o - ts < CACHE_TTL ->
    path PW w o proxy_url force_refresh (w, Returned (Some (cookies, ua)))
| path_wait :
    PW = true ->
    negb force_refresh
      && _is_valid (self w) (t_check o) (_proxy_key proxy_url) = false ->
    _locks (self w) !! _proxy_key proxy_url = Some true ->
    path PW w o proxy_url force_refresh (w, AtLock proxy_url force_refresh)
| path_hit_locked cookies ua ts :
    PW = true -> force_refresh = false ->
    _is_valid (self w) (t_check o) (_proxy_key proxy_url) = false ->
    _locks (self w) !! _proxy_key proxy_url ≠ Some true ->
    _cache (self w) !! _proxy_key proxy_url = Some (cookies, ua, ts) ->
    t_recheck o - ts < CACHE_TTL ->
    path PW w o proxy_url force_refresh
      (lock_release
         (lock_acquire (_get_lock w (_proxy_key proxy_url))
                       (_proxy_key proxy_url))
         (_proxy_key proxy_url),
       Returned (Some (cookies, ua)))
| path_fetch :
    PW = true ->
    negb force_refresh
      && _is_valid (self w) (t_check o) (_proxy_key proxy_url) = false ->
    _locks (self w) !! _proxy_key proxy_url ≠ Some true ->
    negb force_refresh
      && _is_valid (self w) (t_recheck o) (_proxy_key proxy_url) = false ->
    path PW w o proxy_url force_refresh
      (finish
         (emit (lock_acquire (_get_lock w (_proxy_key proxy_url))
                             (_proxy_key proxy_url))
               (BrowserFetch proxy_url))
         (t_store o) proxy_url (browser o)).

End CfCookie.

(** ** The event loop: several [get_cookies] coroutines on one manager

    asyncio resumes one coroutine at a time and runs it to its next
    suspension point.  A schedule names, step by step, the coroutine that
    runs, the clock it reads and, when the browser answers, the answer.
    The steps are those of [CfCookie]: a schedule may interleave other
    coroutines between [start] and [enter], which asyncio does only when
    the lock is held, so every asyncio execution is a schedule. *)

Module Loop.
Import CfCookie.

Record state := State {
  mgr : world;
  tasks : list coroutine;
}.

Inductive label :=
| Start (i : nat) (now : Q)
| Enter (i : nat) (now : Q)
| Finish (i : nat) (now : Q) (result : option fetched).

Definition label_time (l : label) : Q :=
  match l with Start _ t | Enter _ t | Finish _ t _ => t end.

Definition label_task (l : label) : nat :=
  match l with Start i _ | Enter i _ | Finish i _ _ => i end.

Section Loop.

Variable PLAYWRIGHT_AVAILABLE : bool.

Definition park (s : state) (i : nat) (r : world * coroutine) : state :=
  State r.1 (<[i := r.2]> (tasks s)).

(** One step of the loop; [None] when the named coroutine is not at the
    program point of the label, or waits for a lock that is held. *)
Definition resume (s : state) (l : label) : option state :=
  match l with
  | Start i now =>
      match tasks s !! i with
      | Some (Created p f) =>
          Some (park s i (start PLAYWRIGHT_AVAILABLE (mgr s) now p f))
      | _ => None
      end
  | Enter i now =>
      match tasks s !! i with
      | Some (AtLock p f) => park s i <$> enter (mgr s) now p f
      | _ => None
      end
  | Finish i now result =>
      match tasks s !! i with
      | Some (AtFetch p) => Some (park s i (finish (mgr s) now p result))
      | _ => None
      end
  end.

Fixpoint run (s : state) (schedule : list label) : option state :=
  match schedule with
  | [] => Some s
  | l :: schedule =>
      match resume s l with
      | Some s => run s schedule
      | None => None
      end
  end.

End Loop.

(** The ways through one step, for the coroutine [c] that the label names:
    three through [start], two through [enter], one through [finish]. *)
Inductive move (PW : bool) (w : world)
    : label -> coroutine -> world * coroutine -> Prop :=
| move_unavailable i now p f :
    PW = false ->
    move PW w (Start i now) (Created p f) (w, Returned None)
| move_hit i now p cookies ua ts :
    PW = true ->
    _cache (self w) !! _proxy_key p = Some (cookies, ua, ts) ->
    now - ts < CACHE_TTL ->
    move PW w (Start i now) (Created p false)
         (w, Returned (Some (cookies, ua)))
| move_miss i now p f :
    PW = true ->
    negb f && _is_valid (self w) now (_proxy_key p) = false ->
    move PW w (Start i now) (Created p f)
         (_get_lock w (_proxy_key p), AtLock p f)
| move_hit_locked i now p cookies ua ts :
    _locks (self w) !! _proxy_key p = Some false ->
    _cache (self w) !! _proxy_key p = Some (cookies, ua, ts) ->
    now - ts < CACHE_TTL ->
    move PW w (Enter i now) (AtLock p false)
         (lock_release (lock_acquire w (_proxy_key p)) (_proxy_key p),
          Returned (Some (cookies, ua)))
| move_fetch i now p f :
    _locks (self w) !! _proxy_key p = Some false ->
    negb f && _is_valid (self w) now (_proxy_key p) = false ->
    move PW w (Enter i now) (AtLock p f)
         (emit (lock_acquire w (_proxy_key p)) (BrowserFetch p), AtFetch p)
| move_finish i now p result :
    move PW w (Finish i now result) (AtFetch p) (finish w now p result).

(** The locks and the coroutines agree: a coroutine that awaits the
    browser holds the lock of its key, no two of them have the same key, a
    lock that is held is held by one of them, and a coroutine that waits
    for a lock waits for one that exists. *)
Record consistent (s : state) : Prop := {
  fetching_holds i p :
    tasks s !! i = Some (AtFetch p) ->
    _locks (self (mgr s)) !! _proxy_key p = Some true;
  fetching_alone i j p q :
    tasks s !! i = Some (AtFetch p) -> tasks s !! j = Some (AtFetch q) ->
    _proxy_key p = _proxy_key q -> i = j;
  held_by_fetching key :
    _locks (self (mgr s)) !! key = Some true ->
    exists i p, tasks s !! i = Some (AtFetch p) ∧ _proxy_key p = key;
  waiting_registered i p f :
    tasks s !! i = Some (AtLock p f) ->
    is_Some (_locks (self (mgr s)) !! _proxy_key p);
}.

(** How many steps a coroutine has left at most. *)
Definition remaining (c : coroutine) : nat :=
  match c with
  | Created _ _ => 3
  | AtLock _ _ => 2
  | AtFetch _ => 1
  | _ => 0
  end.

(** A coroutine that the loop will not resume again. *)
Definition finished (c : coroutine) : bool :=
  match c with Returned _ | Raised _ => true | _ => false end.

(** The key a coroutine works on. *)
Definition key_of (c : coroutine) : option string :=
  match c with
  | Created p _ | AtLock p _ | AtFetch p => Some (_proxy_key p)
  | _ => None
  end.

(** [n] calls issued and not yet run, on a manager whose locks are free. *)
Definition fresh_call (c : coroutine) : bool :=
  match c with Created _ _ => true | _ => false end.

Definition locks_free (w : world) : Prop :=
  forall key, _locks (self w) !! key ≠ Some true.

Definition initial (s : state) : Prop :=
  locks_free (mgr s) ∧ forallb fresh_call (tasks s) = true.

(** Every clock reading of the schedule lies in a window shorter than the
    time to live. *)
Definition within_ttl (t0 : Q) (schedule : list label) : bool :=
  forallb (fun l => Qle_bool t0 (label_time l)
                    && Qltb (label_time l) (t0 + CACHE_TTL)) schedule.

(** The browser answers every call with a result. *)
Definition browser_succeeds (schedule : list label) : bool :=
  forallb (fun l => match l with Finish _ _ None => false | _ => true end)
          schedule.

(** The calls of the browser for [key] in a history. *)
Definition fetches_for (key : string) (h : list event) : nat :=
  length (filter (fun p => _proxy_key p = key) (fetches h)).

(** All coroutines are through. *)
Definition all_finished (s : state) : bool := forallb finished (tasks s).

(** The steps that the coroutines of a state have left at most. *)
Definition work (s : state) : nat := sum_list (remaining <$> tasks s).

(** *** Single flight

    The calls for one key that starts without entry go through three
    phases: nobody has called the browser; one coroutine awaits the
    browser; its result is stored. *)
Inductive phase :=
| Cold
| Flying
| Stored (result : fetched) (ts : Q).

(** A call for [key] that has not come to the browser. *)
Definition waits_for (key : string) (c : coroutine) : Prop :=
  exists p, _proxy_key p = key ∧ (c = Created p false ∨ c = AtLock p false).

(** Where a call for [key] may be in each phase. *)
Definition allowed (key : string) (ph : phase) (c : coroutine) : Prop :=
  match ph with
  | Cold => waits_for key c
  | Flying => waits_for key c ∨ exists p, _proxy_key p = key ∧ c = AtFetch p
  | Stored result _ => waits_for key c ∨ c = Returned (Some result)
  end.

(** What the coroutine [c] that was issued as [c0] may be: in its phase
    when [c0] is a call for [key], off the key otherwise. *)
Definition role (key : string) (ph : phase) (c0 c : coroutine) : Prop :=
  if decide (key_of c0 = Some key) then allowed key ph c
  else key_of c ≠ Some key.

(** [calls] are the coroutines as they were issued and [n0] the number of
    fetches for [key] before them. *)
Record single_flight (key : string) (n0 : nat)
    (calls : list coroutine) (ph : phase) (s : state) : Prop := {
  sf_length : length (tasks s) = length calls;
  sf_cache :
    _cache (self (mgr s)) !! key =
    match ph with
    | Stored (cookies, ua) ts => Some (cookies, ua, ts)
    | _ => None
    end;
  sf_count :
    fetches_for key (history (mgr s)) =
    match ph with Cold => n0 | _ => S n0 end;
  sf_lock :
    match ph with
    | Cold => _locks (self (mgr s)) !! key ≠ Some true
    | Flying => _locks (self (mgr s)) !! key = Some true
    | Stored _ _ => _locks (self (mgr s)) !! key = Some false
    end;
  sf_calls i c0 c :
    calls !! i = Some c0 -> tasks s !! i = Some c -> role key ph c0 c;
}.

(** No call for [key] among [calls] is forced. *)
Definition unforced (key : string) (calls : list coroutine) : bool :=
  forallb (fun c0 => match c0 with
                     | Created p true => negb (bool_decide (_proxy_key p = key))
                     | _ => true
                     end) calls.

(** There is a call for [key] among [calls]. *)
Definition has_call (key : string) (calls : list coroutine) : bool :=
  existsb (fun c0 => bool_decide (key_of c0 = Some key)) calls.

(** The labels of a schedule that reads [now] on the clock at every step
    and in which the browser answers [result]. *)
Definition plain (now : Q) (result : option fetched) (l : label) : Prop :=
  label_time l = now ∧
  match l with Finish _ _ r => r = result | _ => True end.

(** Whether the step [l] is a step of a call for [key], [calls] being the
    coroutines as they were issued. *)
Definition for_key (key : string) (calls : list coroutine) (l : label) : bool :=
  bool_decide (calls !! label_task l ≫= key_of = Some key).

(** The reading of the clock with which the entry of [key] was stored
    (line 89): [stored] before the step [l], the result after it. *)
Definition stamp (key : string) (calls : list coroutine) (stored : option Q)
    (l : label) : option Q :=
  match l with
  | Finish _ now (Some _) => if for_key key calls l then Some now else stored
  | _ => stored
  end.

(** The step [l] reads the clock for a check of the entry of [key] (line 72
    in [Start], line 81 in [Enter]) only at a time at which the entry stored
    before, if there is one, passes [_is_valid]. *)
Definition in_time (key : string) (calls : list coroutine) (stored : option Q)
    (l : label) : bool :=
  match l, stored with
  | (Start _ now | Enter _ now), Some ts =>
      negb (for_key key calls l) || Qltb (now - ts) CACHE_TTL
  | _, _ => true
  end.

(** Every check of the entry of [key] that follows a store finds the entry
    younger than [CACHE_TTL]. *)
Fixpoint checks_in_time (key : string) (calls : list coroutine)
    (stored : option Q) (schedule : list label) : bool :=
  match schedule with
  | [] => true
  | l :: schedule =>
      in_time key calls stored l
      && checks_in_time key calls (stamp key calls stored l) schedule
  end.

(** The reading of the clock in the entry of a phase. *)
Definition stored_at (ph : phase) : option Q :=
  match ph with Stored _ ts => Some ts | _ => None end.

End Loop.

(** ** Proxy resolution ([src/services/proxy_manager.py]) *)

Module ProxyManager.

(** Modelled from the spec: [core.models] and [core.database] are not part
    of the sources at hand.  A token row carries an optional proxy URL, the
    proxy configuration an enabled flag and an optional URL; the database
    returns the token of an id if there is one, and the configuration. *)
Module Token.
Record t := Make { proxy_url : option string }.
End Token.

Module ProxyConfig.
Record t := Make { proxy_enabled : bool; proxy_url : option string }.
End ProxyConfig.

Record Database := {
  get_token : Z -> option Token.t;
  get_proxy_config : ProxyConfig.t;
}.

(** Lines 28-32. *)
Definition global_proxy (db : Database) : option string :=
  let config := get_proxy_config db in
  if ProxyConfig.proxy_enabled config && truthy (ProxyConfig.proxy_url config)
  then ProxyConfig.proxy_url config
  else None.

(** Lines 12-32. *)
Definition get_proxy_url (db : Database) (token_id : option Z) : option string :=
  match token_id with
  | Some token_id =>
      match get_token db token_id with
      | Some token =>
          if truthy (Token.proxy_url token) then Token.proxy_url token
          else global_proxy db
      | None => global_proxy db
      end
  | None => global_proxy db
  end.

(** The override of a token id, following the words of the interface:
    the id is given, the token exists and its proxy URL is set. *)
Definition override (db : Database) (token_id : option Z) : option string :=
  tid ← token_id; token ← get_token db tid;
  if truthy (Token.proxy_url token) then Token.proxy_url token else None.

End ProxyManager.

(** ** Sample data *)

Module Sample.
Import CfCookie.

Definition cookies : gmap string string :=
  {[ "cf_clearance"%string := "abc"%string ]}.

Definition ua : string := "UA-1".

(** A proxy, and an entry stored for it at time 0; its lock exists and is
    free. *)
Definition proxy : option string := Some "http://10.0.0.1:8080"%string.

Definition cached_free : world :=
  World (Manager {[ "http://10.0.0.1:8080"%string := (cookies, ua, 0) ]}
                 {[ "http://10.0.0.1:8080"%string := false ]})
        [].

Definition fresh : gmap string string :=
  {[ "cf_clearance"%string := "xyz"%string ]}.

(** The same manager while a second caller waits at line 79: the first
    caller has stored the entry and released the lock. *)
Definition stored_while_waiting : world :=
  World (self cached_free)
        [LockCreated "http://10.0.0.1:8080"%string;
         LockAcquired "http://10.0.0.1:8080"%string;
         BrowserFetch proxy;
         LockReleased "http://10.0.0.1:8080"%string].

(** Three calls through the same proxy and a forced call without proxy,
    on the manager as constructed, and a schedule of the loop for them:
    the first call gets the lock and awaits the browser for five seconds
    while the others arrive. *)
Definition calls : Loop.state :=
  Loop.State cf_cookie_manager
    [Created proxy false; Created proxy false; Created proxy false;
     Created None true].

Definition schedule : list Loop.label :=
  [Loop.Start 0 0; Loop.Start 1 0; Loop.Enter 0 0; Loop.Start 2 1;
   Loop.Start 3 1; Loop.Enter 3 1;
   Loop.Finish 0 5 (Some (cookies, ua));
   Loop.Enter 1 5; Loop.Enter 2 6;
   Loop.Finish 3 7 (Some (fresh, ua))].

Definition outcome : Loop.state :=
  default calls (Loop.run true calls schedule).

(** Two calls through the same proxy on the manager as constructed.  The
    second call waits for the lock and is resumed 695 seconds after the
    first one has stored its result; the browser answers it with other
    cookies. *)
Definition twins : Loop.state :=
  Loop.State cf_cookie_manager [Created proxy false; Created proxy false].

Definition late : list Loop.label :=
  [Loop.Start 0 0; Loop.Start 1 0; Loop.Enter 0 0;
   Loop.Finish 0 5 (Some (cookies, ua));
   Loop.Enter 1 700;
   Loop.Finish 1 705 (Some (fresh, ua))].

Definition apart : Loop.state :=
  default twins (Loop.run true twins late).

End Sample.

(** ** The loop with invalidations

    [invalidate] and [invalidate_all] are plain functions: a caller runs
    them between two steps of the coroutines, whatever these are doing. *)

Module Ops.
Import CfCookie Loop.

Inductive op :=
| Resume (l : label)
| Invalidate (proxy_url : option string)
| InvalidateAll.

Definition apply (PW : bool) (s : state) (o : op) : option state :=
  match o with
  | Resume l => resume PW s l
  | Invalidate proxy_url => Some (State (invalidate (mgr s) proxy_url) (tasks s))
  | InvalidateAll => Some (State (invalidate_all (mgr s)) (tasks s))
  end.

Fixpoint run_ops (PW : bool) (s : state) (ops : list op) : option state :=
  match ops with
  | [] => Some s
  | o :: ops =>
      match apply PW s o with
      | Some s => run_ops PW s ops
      | None => None
      end
  end.

(** How often the lock of [key] was created in a history. *)
Definition is_creation (key : string) (e : event) : bool :=
  match e with LockCreated k => bool_decide (k = key) | _ => false end.

Definition creations (key : string) (h : list event) : nat :=
  length (List.filter (is_creation key) h).

(** Whether [key] has a lock. *)
Definition registered (w : world) (key : string) : bool :=
  bool_decide (is_Some (_locks (self w) !! key)).

End Ops.

(** ** The browser ([_fetch_cookies_via_browser], lines 96-201)

    The function drives playwright.  What playwright does is given by a
    [session]: for every awaited call, whether it raises and what it
    returns.  The function is written in a monad of the calls made so far,
    the locals [pw] and [browser] that the handler of line 189 reads, and
    exceptions.  Only exceptions that [except Exception] catches are
    modelled. *)

Module Browser.
Import CfCookie.

(** Lines 18-22. *)
Definition _DEFAULT_UA : string :=
  "Mozilla/5.0 (Windows NT 10.0; Win64; x64) AppleWebKit/537.36 (KHTML, like Gecko) Chrome/131.0.0.0 Safari/537.36".

(** A cookie as the function reads it: [c["name"]] and [c["value"]]. *)
Abbreviation cookie := (string * string)%type.

(** The awaited calls.  [launch] is called with [headless] and a fixed
    list of arguments besides the proxy, [new_context] with a fixed
    viewport besides the user agent. *)
Inductive action :=
| PwStart
| Launch (proxy : option string)
| NewContext (user_agent : string)
| NewPage
| Goto (url : string)
| Cookies (url : string)
| Title
| Sleep (seconds : Z)
| ContextClose
| BrowserClose
| PwStop.

(** What playwright answers.  [false] and [None] stand for a raised
    exception; the polls of the loop of line 146 are numbered from 0. *)
Record session := Session {
  start_ok : bool;
  launch_ok : bool;
  new_context_ok : bool;
  new_page_ok : bool;
  goto_ok : bool;
  poll_cookies : nat -> option (list cookie);
  poll_title : nat -> option string;
  all_cookies : option (list cookie);
  context_close_ok : bool;
  browser_close_ok : bool;
  pw_stop_ok : bool;
}.

Record frame := Frame {
  trace : list action;
  pw : bool;        (* [pw] is not [None] *)
  browser : bool;   (* [browser] is not [None] *)
}.

Inductive outcome (A : Type) :=
| Ok (a : A)
| Raise.
Arguments Ok {A} a.
Arguments Raise {A}.

Definition M (A : Type) : Type := frame -> outcome A * frame.

#[global] Instance M_ret : MRet M := fun A a s => (Ok a, s).

#[global] Instance M_bind : MBind M := fun A B k m s =>
  match m s with
  | (Ok a, s) => k a s
  | (Raise, s) => (Raise, s)
  end.

Definition raise {A} : M A := fun s => (Raise, s).

Definition log (a : action) (s : frame) : frame :=
  Frame (trace s ++ [a]) (pw s) (browser s).

(** An awaited call: it is made, and returns or raises. *)
Definition call {A} (a : action) (answer : option A) : M A := fun s =>
  (match answer with Some x => Ok x | None => Raise end, log a s).

Definition ok (b : bool) : option unit := if b then Some tt else None.

(** [try: m  except Exception: pass]. *)
Definition attempt {A} (m : M A) : M (option A) := fun s =>
  match m s with
  | (Ok a, s) => (Ok (Some a), s)
  | (Raise, s) => (Ok None, s)
  end.

Definition set_pw : M unit := fun s => (Ok tt, Frame (trace s) true (browser s)).

Definition set_browser : M unit := fun s => (Ok tt, Frame (trace s) (pw s) true).

(** [needle in hay]. *)
Fixpoint contains (needle hay : string) : bool :=
  String.prefix needle hay
  || match hay with
     | EmptyString => false
     | String _ rest => contains needle rest
     end.

(** Lines 148-151. *)
Definition has_cf_clearance (cookies_list : list cookie) : bool :=
  existsb (fun c => bool_decide (c.1 = "cf_clearance"%string)) cookies_list.

(** Lines 171-173: later cookies overwrite earlier ones of the same name. *)
Definition to_dict (cookies : list cookie) : gmap string string :=
  foldl (fun d c => <[c.1 := c.2]> d) ∅ cookies.

(** Lines 141-142. *)
Definition max_wait : Z := 60.
Definition poll_interval : Z := 2.

Definition SORA : string := "https://sora.chatgpt.com".

Section Fetch.

(** Lines 10-14: without playwright the name [async_playwright] is not
    bound and line 104 raises [NameError]. *)
Variable PLAYWRIGHT_AVAILABLE : bool.

(** [str.lower]. *)
Variable lower : string -> string.

Variable env : session.

(** Line 159. *)
Definition past_challenge (title : string) : bool :=
  truthy (Some title) && negb (contains "just a moment" (lower title)).

(** Lines 146-167, entered for the [k]-th time with [waited] seconds
    slept; the result is [cf_clearance_found].  The loop is left after at
    most 30 rounds, see [poll_fuel]. *)
Fixpoint poll (fuel k : nat) (waited : Z) : M bool :=
  match fuel with
  | O => mret false
  | S fuel =>
      if (waited <? max_wait)%Z then
        cookies_list ← call (Cookies SORA) (poll_cookies env k);
        if has_cf_clearance cookies_list then mret true
        else
          title ← attempt (call Title (poll_title env k));
          if match title with
             | Some title => past_challenge title
             | None => false
             end
          then mret true
          else
            call (Sleep poll_interval) (Some tt) ;;
            poll fuel (S k) (waited + poll_interval)%Z
      else mret false
  end.

(** The [k]-th round of the loop neither raises nor finds a sign that the
    challenge is solved: it ends in the sleep of line 166. *)
Definition quiet (k : nat) : bool :=
  match poll_cookies env k with
  | Some cookies_list =>
      negb (has_cf_clearance cookies_list)
      && negb match poll_title env k with
              | Some title => past_challenge title
              | None => false
              end
  | None => false
  end.

(** Lines 104-187, the body of the [try]. *)
Definition session_body (proxy_url : option string) : M (option fetched) :=
  (if PLAYWRIGHT_AVAILABLE then call PwStart (ok (start_ok env)) else raise) ;;
  set_pw ;;
  call (Launch (if truthy proxy_url then proxy_url else None))
       (ok (launch_ok env)) ;;
  set_browser ;;
  call (NewContext _DEFAULT_UA) (ok (new_context_ok env)) ;;
  call NewPage (ok (new_page_ok env)) ;;
  attempt (call (Goto "https://sora.chatgpt.com/") (ok (goto_ok env))) ;;
  cf_clearance_found ← poll 30 0 0;
  all_cookies ← call (Cookies SORA) (all_cookies env);
  let cookies_dict := to_dict all_cookies in
  if negb cf_clearance_found && bool_decide (cookies_dict = ∅) then mret None
  else
    call ContextClose (ok (context_close_ok env)) ;;
    call BrowserClose (ok (browser_close_ok env)) ;;
    call PwStop (ok (pw_stop_ok env)) ;;
    mret (Some (cookies_dict, _DEFAULT_UA)).

(** Lines 189-201: close what was opened; what closing raises is passed
    over. *)
Definition cleanup (s : frame) : frame :=
  let s := if browser s then log BrowserClose s else s in
  if pw s then log PwStop s else s.

(** Lines 96-201: the result and the calls that were made. *)
Definition _fetch_cookies_via_browser (proxy_url : option string)
    : option fetched * list action :=
  match session_body proxy_url (Frame [] false false) with
  | (Ok result, s) => (result, trace s)
  | (Raise, s) => (None, trace (cleanup s))
  end.

End Fetch.

(** The calls up to the loop when none of them raises. *)
Definition setup (proxy_url : option string) : list action :=
  [PwStart; Launch (if truthy proxy_url then proxy_url else None);
   NewContext _DEFAULT_UA; NewPage; Goto "https://sora.chatgpt.com/"].

(** The calls after the loop when none of them raises. *)
Definition harvest : list action :=
  [Cookies SORA; ContextClose; BrowserClose; PwStop].

(** A session that differs from [env] in the navigation, which raises or
    not as [goto] says, and in the titles: where reading the title raises
    in [env], it is empty here. *)
Definition forgiving (env : session) (goto : bool) : session :=
  Session (start_ok env) (launch_ok env) (new_context_ok env)
          (new_page_ok env) goto (poll_cookies env)
          (fun k => match poll_title env k with
                    | Some title => Some title
                    | None => Some ""%string
                    end)
          (all_cookies env) (context_close_ok env) (browser_close_ok env)
          (pw_stop_ok env).

(** The calls of a round that ends in the sleep. *)
Definition full_round : list action :=
  [Cookies SORA; Title; Sleep poll_interval].

(** [get_cookies] with the browser behind it: the answer of line 86 is
    what [_fetch_cookies_via_browser] returns in the session. *)
Definition get_cookies_in (PW : bool) (lower : string -> string)
    (env : session) (w : world) (t_check t_recheck t_store : Q)
    (proxy_url : option string) (force_refresh : bool) : world * coroutine :=
  get_cookies PW w
    (Oracle t_check t_recheck t_store
            (_fetch_cookies_via_browser PW lower env proxy_url).1)
    proxy_url force_refresh.

(** Every entry of the cache carries the user agent of the browser. *)
Definition agent_kept (w : world) : Prop :=
  forall key cookies ua ts,
    _cache (self w) !! key = Some (cookies, ua, ts) -> ua = _DEFAULT_UA.

(** The calls of one kind in a trace. *)
Definition sleeps (t : list action) : list Z :=
  omap (fun a => match a with Sleep n => Some n | _ => None end) t.

Definition closes_browser (t : list action) : bool :=
  existsb (fun a => match a with BrowserClose => true | _ => false end) t.

Definition stops_playwright (t : list action) : bool :=
  existsb (fun a => match a with PwStop => true | _ => false end) t.

End Browser.

(** ** Sample sessions *)

Module Demo.
Import CfCookie Browser.

(** [str.lower] on the letters A to Z. *)
Definition lower_ascii (c : ascii) : ascii :=
  let n := nat_of_ascii c in
  if (65 <=? n)%nat && (n <=? 90)%nat then ascii_of_nat (n + 32) else c.

Fixpoint lower (s : string) : string :=
  match s with
  | EmptyString => EmptyString
  | String c rest => String (lower_ascii c) (lower rest)
  end.

Definition jar : list cookie :=
  [("cf_clearance", "abc"); ("__cf_bm", "x"); ("__cf_bm", "y")]%string.

(** The challenge page stays up until round [n], when [cf_clearance]
    shows; the navigation times out. *)
Definition solved_at (n : nat) : session :=
  Session true true true true false
    (fun k => Some (if (n <=? k)%nat then jar else []))
    (fun k => Some "Just a moment..."%string)
    (Some jar) true true true.

(** The challenge is never solved and no cookie is ever set. *)
Definition stuck : session :=
  Session true true true true true
    (fun k => Some [])
    (fun k => if Nat.even k then Some "Just a moment..."%string else None)
    (Some []) true true true.

(** A manager that holds an entry of an earlier fetch. *)
Definition warm : world :=
  World (Manager {[ "http://10.0.0.1:8080"%string
                    := (to_dict jar, _DEFAULT_UA, 0) ]}
                 {[ "http://10.0.0.1:8080"%string := false ]})
        [].

(** Two coroutines and an invalidation while the first awaits the
    browser. *)
Definition racing : list Ops.op :=
  [Ops.Resume (Loop.Start 0 0); Ops.Resume (Loop.Enter 0 0);
   Ops.Resume (Loop.Start 1 1); Ops.Invalidate Sample.proxy;
   Ops.Resume (Loop.Finish 0 5 (Some (to_dict jar, _DEFAULT_UA)));
   Ops.InvalidateAll; Ops.Resume (Loop.Enter 1 6);
   Ops.Resume (Loop.Finish 1 9 None)].

Definition two_calls : Loop.state :=
  Loop.State cf_cookie_manager
    [Created Sample.proxy false; Created Sample.proxy false].

Definition raced : Loop.state :=
  default two_calls (Ops.run_ops true two_calls racing).

(** A forced call on the manager that holds an entry, with both kinds of
    invalidation on its way. *)
Definition warm_call : Loop.state :=
  Loop.State warm [Created Sample.proxy true].

Definition refresh : list Ops.op :=
  [Ops.Invalidate Sample.proxy; Ops.Resume (Loop.Start 0 1);
   Ops.InvalidateAll; Ops.Resume (Loop.Enter 0 1);
   Ops.Resume (Loop.Finish 0 4 None)].

Definition refreshed : Loop.state :=
  default warm_call (Ops.run_ops true warm_call refresh).

(** Three calls on the manager as constructed.  The first one fetches and
    stores its result at time 5; the second one is forced and awaits the
    browser with the lock of the key in its hands; the third one has not
    run yet. *)
Definition three_calls : Loop.state :=
  Loop.State cf_cookie_manager
    [Created Sample.proxy false; Created Sample.proxy true;
     Created Sample.proxy false].

Definition busy : list Ops.op :=
  [Ops.Resume (Loop.Start 0 0); Ops.Resume (Loop.Enter 0 0);
   Ops.Resume (Loop.Finish 0 5 (Some (Sample.cookies, Sample.ua)));
   Ops.Resume (Loop.Start 1 6); Ops.Resume (Loop.Enter 1 6)].

Definition served : Loop.state :=
  default three_calls (Ops.run_ops true three_calls busy).

End Demo.

(** * Properties *)

Import CfCookie.

(** ** Comparisons and truthiness *)

Lemma Qltb_lt (x y : Q) : Qltb x y = true <-> x < y.
Proof.
  unfold Qltb. rewrite negb_true_iff, <- not_true_iff_false, Qle_bool_iff.
  split; lra.
Qed.

Lemma Qltb_ge (x y : Q) : Qltb x y = false <-> y <= x.
Proof.
  unfold Qltb. rewrite negb_false_iff, Qle_bool_iff. tauto.
Qed.

Lemma truthy_Some (s : string) : truthy (Some s) = true <-> s ≠ ""%string.
Proof. unfold truthy. case_decide; split; congruence. Qed.

(** ** Route keys *)

Lemma _proxy_key_None : _proxy_key None = "__no_proxy__"%string.
Proof. reflexivity. Qed.

Lemma _proxy_key_empty : _proxy_key (Some ""%string) = "__no_proxy__"%string.
Proof. reflexivity. Qed.

Lemma _proxy_key_Some (s : string) : s ≠ ""%string -> _proxy_key (Some s) = s.
Proof. intros H. unfold _proxy_key. apply truthy_Some in H. by rewrite H. Qed.

(** ** Validity *)

Lemma _is_valid_true (m : CfCookieManager) (now : Q) (key : string) :
  _is_valid m now key = true <->
  exists cookies ua ts,
    _cache m !! key = Some (cookies, ua, ts) /\ now - ts < CACHE_TTL.
Proof.
  unfold _is_valid. destruct (_cache m !! key) as [[[c ua] ts]|]; split.
  - intros H%Qltb_lt. eauto.
  - intros (c' & ua' & ts' & [= <- <- <-] & H). by apply Qltb_lt.
  - discriminate.
  - intros (? & ? & ? & [=] & _).
Qed.

Lemma _is_valid_entry (m : CfCookieManager) (now : Q) (key : string)
    (cookies : gmap string string) (ua : string) (ts : Q) :
  _cache m !! key = Some (cookies, ua, ts) ->
  _is_valid m now key = Qltb (now - ts) CACHE_TTL.
Proof. unfold _is_valid. by intros ->. Qed.

Lemma _is_valid_absent (m : CfCookieManager) (now : Q) (key : string) :
  _cache m !! key = None -> _is_valid m now key = false.
Proof. unfold _is_valid. by intros ->. Qed.

(** ** The locks and the history leave the cache alone *)

Lemma _cache_get_lock w key : _cache (self (_get_lock w key)) = _cache (self w).
Proof. unfold _get_lock. by destruct (_locks (self w) !! key). Qed.

Lemma _cache_lock_acquire w key :
  _cache (self (lock_acquire w key)) = _cache (self w).
Proof. reflexivity. Qed.

Lemma _cache_lock_release w key :
  _cache (self (lock_release w key)) = _cache (self w).
Proof. reflexivity. Qed.

Lemma _is_valid_cache m m' now key :
  _cache m = _cache m' -> _is_valid m now key = _is_valid m' now key.
Proof. unfold _is_valid. by intros ->. Qed.

Lemma _locks_get_lock w key :
  _locks (self (_get_lock w key)) =
  match _locks (self w) !! key with
  | None => <[key := false]> (_locks (self w))
  | Some _ => _locks (self w)
  end.
Proof. unfold _get_lock. by destruct (_locks (self w) !! key). Qed.

Lemma _get_lock_registered w key :
  is_Some (_locks (self (_get_lock w key)) !! key).
Proof.
  rewrite _locks_get_lock. destruct (_locks (self w) !! key) eqn:E.
  - rewrite E. eauto.
  - rewrite lookup_insert_eq. eauto.
Qed.

Lemma _get_lock_free w key :
  _locks (self w) !! key ≠ Some true ->
  _locks (self (_get_lock w key)) !! key = Some false.
Proof.
  intros H. rewrite _locks_get_lock.
  destruct (_locks (self w) !! key) as [[]|] eqn:E; try done.
  by rewrite lookup_insert_eq.
Qed.

Lemma _get_lock_other w key key' :
  key ≠ key' ->
  _locks (self (_get_lock w key)) !! key' = _locks (self w) !! key'.
Proof.
  intros H. rewrite _locks_get_lock.
  destruct (_locks (self w) !! key); [done|]. by rewrite lookup_insert_ne.
Qed.

(** ** Histories *)

Lemma new_events_refl w : new_events w w = [].
Proof. unfold new_events. by rewrite drop_all. Qed.

Lemma new_events_app w w' l :
  history w' = history w ++ l -> new_events w w' = l.
Proof. unfold new_events. intros ->. by rewrite drop_app_length. Qed.

Lemma history_get_lock w key :
  history (_get_lock w key) =
  history w ++ match _locks (self w) !! key with
               | None => [LockCreated key]
               | Some _ => []
               end.
Proof.
  unfold _get_lock. destruct (_locks (self w) !! key); simpl; [|done].
  by rewrite app_nil_r.
Qed.

(** ** The paths of one call *)

Section Paths.

Context (w : world) (o : oracle) (proxy_url : option string).

Local Abbreviation key := (_proxy_key proxy_url).

Lemma get_cookies_unavailable force_refresh :
  get_cookies false w o proxy_url force_refresh = (w, Returned None).
Proof. reflexivity. Qed.

Lemma get_cookies_hit cookies ua ts :
  _cache (self w) !! key = Some (cookies, ua, ts) ->
  t_check o - ts < CACHE_TTL ->
  get_cookies true w o proxy_url false = (w, Returned (Some (cookies, ua))).
Proof.
  intros Hc Ht. unfold get_cookies, start, cache_read. simpl.
  rewrite (_is_valid_entry _ _ _ _ _ _ Hc), Hc.
  apply Qltb_lt in Ht. by rewrite Ht.
Qed.

Lemma get_cookies_waits force_refresh :
  negb force_refresh && _is_valid (self w) (t_check o) key = false ->
  _locks (self w) !! key = Some true ->
  get_cookies true w o proxy_url force_refresh = (w, AtLock proxy_url force_refresh).
Proof.
  intros Hm Hl. unfold get_cookies, start, enter. simpl.
  rewrite Hm. unfold _get_lock. by rewrite !Hl.
Qed.

Lemma get_cookies_hit_locked cookies ua ts :
  _is_valid (self w) (t_check o) key = false ->
  _locks (self w) !! key ≠ Some true ->
  _cache (self w) !! key = Some (cookies, ua, ts) ->
  t_recheck o - ts < CACHE_TTL ->
  get_cookies true w o proxy_url false =
  (lock_release (lock_acquire (_get_lock w key) key) key,
   Returned (Some (cookies, ua))).
Proof.
  intros Hm Hl Hc Ht. unfold get_cookies, start, enter. simpl.
  rewrite Hm, (_get_lock_free _ _ Hl).
  rewrite (_is_valid_cache _ (self w)) by apply _cache_get_lock.
  rewrite (_is_valid_entry _ _ _ _ _ _ Hc).
  apply Qltb_lt in Ht. rewrite Ht. unfold cache_read. simpl.
  by rewrite _cache_get_lock, Hc.
Qed.

Lemma get_cookies_fetch force_refresh :
  negb force_refresh && _is_valid (self w) (t_check o) key = false ->
  _locks (self w) !! key ≠ Some true ->
  negb force_refresh && _is_valid (self w) (t_recheck o) key = false ->
  get_cookies true w o proxy_url force_refresh =
  finish (emit (lock_acquire (_get_lock w key) key) (BrowserFetch proxy_url))
         (t_store o) proxy_url (browser o).
Proof.
  intros Hm Hl Hm'. unfold get_cookies, start, enter. simpl.
  rewrite Hm, (_get_lock_free _ _ Hl).
  rewrite (_is_valid_cache _ (self w)) by apply _cache_get_lock.
  by rewrite Hm'.
Qed.

End Paths.

(** Every call takes one of the five paths. *)
Lemma get_cookies_path PW w o proxy_url force_refresh :
  path PW w o proxy_url force_refresh
       (get_cookies PW w o proxy_url force_refresh).
Proof.
  destruct PW; [|by constructor].
  destruct (negb force_refresh
            && _is_valid (self w) (t_check o) (_proxy_key proxy_url)) eqn:Hm.
  - apply andb_true_iff in Hm as [->%negb_true_iff Hv].
    apply _is_valid_true in Hv as (c & ua & ts & Hc & Ht).
    rewrite (get_cookies_hit _ _ _ _ _ _ Hc Ht). by econstructor.
  - destruct (decide (_locks (self w) !! _proxy_key proxy_url = Some true))
      as [Hl|Hl].
    { rewrite get_cookies_waits by done. by constructor. }
    destruct (negb force_refresh
              && _is_valid (self w) (t_recheck o) (_proxy_key proxy_url))
      eqn:Hm'.
    + apply andb_true_iff in Hm' as [->%negb_true_iff Hv].
      apply _is_valid_true in Hv as (c & ua & ts & Hc & Ht). simpl in Hm.
      rewrite (get_cookies_hit_locked _ _ _ _ _ _ Hm Hl Hc Ht).
      by econstructor.
    + rewrite get_cookies_fetch by done. by constructor.
Qed.

(** ** What each path leaves behind *)

Lemma finish_world w now proxy_url result :
  finish w now proxy_url result =
  (lock_release
     match result with
     | Some (cookies, ua) =>
         cache_store w (_proxy_key proxy_url) (cookies, ua, now)
     | None => w
     end (_proxy_key proxy_url),
   Returned result).
Proof. unfold finish. by destruct result as [[c ua]|]. Qed.

Lemma finish_cache w now proxy_url result :
  _cache (self (finish w now proxy_url result).1) =
  match result with
  | Some (cookies, ua) =>
      <[_proxy_key proxy_url := (cookies, ua, now)]> (_cache (self w))
  | None => _cache (self w)
  end.
Proof. unfold finish. by destruct result as [[c ua]|]. Qed.

Lemma finish_locks w now proxy_url result :
  _locks (self (finish w now proxy_url result).1) =
  <[_proxy_key proxy_url := false]> (_locks (self w)).
Proof. unfold finish. by destruct result as [[c ua]|]. Qed.

Lemma finish_history w now proxy_url result :
  history (finish w now proxy_url result).1 =
  history w ++ [LockReleased (_proxy_key proxy_url)].
Proof. unfold finish. by destruct result as [[c ua]|]. Qed.

Lemma finish_result w now proxy_url result :
  (finish w now proxy_url result).2 = Returned result.
Proof. unfold finish. by destruct result as [[c ua]|]. Qed.

Lemma path_events PW w o proxy_url force_refresh r :
  path PW w o proxy_url force_refresh r ->
  let key := _proxy_key proxy_url in
  new_events w r.1 = [] ∨
  new_events w r.1 = created w key ++ [LockAcquired key; LockReleased key] ∨
  (PW = true ∧
   negb force_refresh && _is_valid (self w) (t_check o) key = false ∧
   _locks (self w) !! key ≠ Some true ∧
   negb force_refresh && _is_valid (self w) (t_recheck o) key = false ∧
   r = finish (emit (lock_acquire (_get_lock w key) key)
                    (BrowserFetch proxy_url))
              (t_store o) proxy_url (browser o) ∧
   new_events w r.1 =
     created w key
       ++ [LockAcquired key; BrowserFetch proxy_url; LockReleased key]).
Proof.
  intros [] key; simpl.
  - left. apply new_events_refl.
  - left. apply new_events_refl.
  - left. apply new_events_refl.
  - right. left. apply new_events_app. simpl.
    rewrite history_get_lock. by rewrite <- !app_assoc.
  - right. right. repeat split; try done.
    apply new_events_app. rewrite finish_world.
    destruct (browser o) as [[c ua]|]; simpl;
      by rewrite history_get_lock, <- !app_assoc.
Qed.

Lemma BrowserFetch_not_created w key q l :
  (forall e, e ∈ l -> e ≠ BrowserFetch q) ->
  BrowserFetch q ∉ created w key ++ l.
Proof.
  intros Hl [H|H]%elem_of_app.
  - unfold created in H. destruct (_locks (self w) !! key).
    + by apply not_elem_of_nil in H.
    + by apply list_elem_of_singleton in H.
  - by apply (Hl _ H).
Qed.

(** A call that invoked the browser took the last path. *)
Lemma get_cookies_fetched_inv PW w o proxy_url force_refresh w' c q :
  get_cookies PW w o proxy_url force_refresh = (w', c) ->
  BrowserFetch q ∈ new_events w w' ->
  let key := _proxy_key proxy_url in
  PW = true ∧ q = proxy_url ∧
  negb force_refresh && _is_valid (self w) (t_check o) key = false ∧
  _locks (self w) !! key ≠ Some true ∧
  negb force_refresh && _is_valid (self w) (t_recheck o) key = false ∧
  (w', c) = finish (emit (lock_acquire (_get_lock w key) key)
                         (BrowserFetch proxy_url))
                   (t_store o) proxy_url (browser o).
Proof.
  intros Hg Hin key.
  pose proof (get_cookies_path PW w o proxy_url force_refresh) as Hp.
  rewrite Hg in Hp. apply path_events in Hp. simpl in Hp.
  destruct Hp as [Hp|[Hp|(? & ? & ? & ? & ? & Hp)]]; rewrite Hp in Hin.
  - by apply not_elem_of_nil in Hin.
  - exfalso. revert Hin. apply BrowserFetch_not_created.
    intros e He%list_elem_of_In ->. simpl in He. intuition discriminate.
  - repeat split; try done.
    apply elem_of_app in Hin as [Hin|Hin].
    + unfold created in Hin. destruct (_locks (self w) !! _proxy_key proxy_url).
      * by apply not_elem_of_nil in Hin.
      * by apply list_elem_of_singleton in Hin.
    + apply list_elem_of_In in Hin. simpl in Hin.
      destruct Hin as [|[[=]|[|[]]]]; done.
Qed.

(** ** C5: forced refresh *)

(** C5, as amended.  When playwright is available, for every proxy and
    every cache, also one with a valid entry for the key, a call
    [get_cookies(proxy_url, True)] that finds the key's lock free calls the
    browser, once, under the lock, returns what the browser answered, never
    the entry it found, and after an answer [(cookies, ua)] the cache holds
    [(cookies, ua, t)] for the key, [t] being the clock at line 89.  Step by
    step, in whatever state the manager is: the forced call passes the check
    of line 72 and goes for the lock, and when it gets the lock it passes
    the check of line 81 and calls the browser. *)
Theorem C5_force_refresh_fetches w o proxy_url :
  _locks (self w) !! _proxy_key proxy_url ≠ Some true ->
  let key := _proxy_key proxy_url in
  let r := get_cookies true w o proxy_url true in
  new_events w r.1 =
    created w key ++ [LockAcquired key; BrowserFetch proxy_url; LockReleased key] ∧
  r.2 = Returned (browser o) ∧
  (forall cookies ua, browser o = Some (cookies, ua) ->
     _cache (self r.1) !! key = Some (cookies, ua, t_store o)) ∧
  (forall w' now,
     start true w' now proxy_url true = (_get_lock w' key, AtLock proxy_url true)) ∧
  (forall w' now r',
     enter w' now proxy_url true = Some r' ->
     r' = (emit (lock_acquire w' key) (BrowserFetch proxy_url),
           AtFetch proxy_url)).
Proof.
  intros Hl key r. subst r key.
  rewrite get_cookies_fetch by done. rewrite finish_world. simpl.
  split; [|split; [done|split; [|split; [done|]]]].
  - apply new_events_app.
    destruct (browser o) as [[c ua]|]; simpl;
      by rewrite history_get_lock, <- !app_assoc.
  - intros c ua ->. simpl. by rewrite lookup_insert_eq.
  - intros w' now r'. unfold enter.
    destruct (_locks (self w') !! _proxy_key proxy_url) as [[]|]; try done.
    by intros [= <-].
Qed.

(** C5 as stated fails when playwright is not installed: the call returns
    [None] at line 67 and the browser is not called. *)
Lemma C5_counterexample :
  let o := Oracle 0 0 0 (Some (Sample.cookies, Sample.ua)) in
  let r := get_cookies false cf_cookie_manager o None true in
  _locks (self cf_cookie_manager) !! _proxy_key None ≠ Some true ∧
  r = (cf_cookie_manager, Returned None) ∧
  BrowserFetch None ∉ new_events cf_cookie_manager r.1.
Proof.
  split; [by vm_compute|]. split; [reflexivity|].
  simpl. rewrite new_events_refl. apply not_elem_of_nil.
Qed.

Lemma C5_force_refresh_fetches_witness :
  let o := Oracle 1 1 2 (Some (Sample.fresh, Sample.ua)) in
  let key := _proxy_key Sample.proxy in
  let r := get_cookies true Sample.cached_free o Sample.proxy true in
  _is_valid (self Sample.cached_free) 1 key = true ∧
  new_events Sample.cached_free r.1 =
    created Sample.cached_free key
      ++ [LockAcquired key; BrowserFetch Sample.proxy; LockReleased key] ∧
  r.2 = Returned (browser o) ∧
  _cache (self r.1) !! key = Some (Sample.fresh, Sample.ua, 2).
Proof.
  split; [reflexivity|].
  destruct (C5_force_refresh_fetches Sample.cached_free
              (Oracle 1 1 2 (Some (Sample.fresh, Sample.ua))) Sample.proxy)
    as (H1 & H2 & H3 & _).
  - vm_compute. discriminate.
  - split; [exact H1|]. split; [exact H2|]. by apply H3.
Defined.

(** ** C10: what a call may touch *)

Lemma locks_after_section w key :
  _locks (self w) !! key ≠ Some true ->
  <[key := false]> (<[key := true]> (_locks (self (_get_lock w key)))) =
  match _locks (self w) !! key with
  | None => <[key := false]> (_locks (self w))
  | Some _ => _locks (self w)
  end.
Proof.
  intros Hl. rewrite _locks_get_lock, insert_insert_eq.
  destruct (_locks (self w) !! key) as [[]|] eqn:E; [done| |].
  - by apply insert_id.
  - by rewrite insert_insert_eq.
Qed.

Lemma locks_grow_or_stay (locks : gmap string bool) key :
  let locks' := match locks !! key with
                | None => <[key := false]> locks
                | Some _ => locks
                end in
  locks' = locks ∨ (locks !! key = None ∧ locks' = <[key := false]> locks).
Proof. simpl. destruct (locks !! key); eauto. Qed.

(** C10.  Whatever the path of [get_cookies(proxy_url, force_refresh)]
    (unavailable, cache hit, suspended on the lock, hit under the lock,
    browser called with or without a result), the entries of every key
    other than [_proxy_key proxy_url] are as before, every key that had an
    entry still has one, and [_locks] is either as before or as before with
    one new, free lock for [_proxy_key proxy_url]. *)
Theorem C10_get_cookies_frame PW w o proxy_url force_refresh :
  let key := _proxy_key proxy_url in
  let r := get_cookies PW w o proxy_url force_refresh in
  (forall k, k ≠ key -> _cache (self r.1) !! k = _cache (self w) !! k) ∧
  (forall k, is_Some (_cache (self w) !! k) -> is_Some (_cache (self r.1) !! k)) ∧
  (_locks (self r.1) = _locks (self w) ∨
   (_locks (self w) !! key = None ∧
    _locks (self r.1) = <[key := false]> (_locks (self w)))).
Proof.
  intros key r. subst r.
  destruct (get_cookies_path PW w o proxy_url force_refresh)
    as [?|c ua ts ? ? ? ?|? ? ?|c ua ts ? ? ? Hl ? ?|? ? Hl ?];
    try by eauto.
  - simpl. rewrite _cache_get_lock, (locks_after_section _ _ Hl).
    split; [done|]. split; [done|]. apply locks_grow_or_stay.
  - rewrite finish_cache, finish_locks. simpl.
    rewrite (locks_after_section _ _ Hl), _cache_get_lock.
    split; [|split; [|apply locks_grow_or_stay]].
    + intros k Hk. destruct (browser o) as [[]|]; [|done].
      by rewrite lookup_insert_ne.
    + intros k Hk. destruct (browser o) as [[]|]; [|done].
      destruct (decide (_proxy_key proxy_url = k)) as [->|].
      * rewrite lookup_insert_eq. eauto.
      * by rewrite lookup_insert_ne.
Qed.

(** ** C7: invalidation *)

Lemma invalidate_cache w proxy_url :
  _cache (self (invalidate w proxy_url)) =
  delete (_proxy_key proxy_url) (_cache (self w)).
Proof.
  unfold invalidate.
  destruct (_cache (self w) !! _proxy_key proxy_url) eqn:E; [done|].
  by rewrite delete_id.
Qed.

Lemma invalidate_absent w proxy_url :
  _cache (self w) !! _proxy_key proxy_url = None -> invalidate w proxy_url = w.
Proof. unfold invalidate. by intros ->. Qed.

(** C7.  [invalidate(proxy_url)] deletes the entry of the key of
    [proxy_url] and nothing else, does nothing at all when there is none,
    gives the same manager applied twice as applied once, and leaves
    [_locks] as it is; [invalidate_all()] empties the cache, gives the same
    manager applied twice as applied once, and leaves [_locks] as it is. *)
Theorem C7_invalidate w proxy_url :
  let key := _proxy_key proxy_url in
  _cache (self (invalidate w proxy_url)) = delete key (_cache (self w)) ∧
  (_cache (self w) !! key = None -> invalidate w proxy_url = w) ∧
  invalidate (invalidate w proxy_url) proxy_url = invalidate w proxy_url ∧
  _locks (self (invalidate w proxy_url)) = _locks (self w) ∧
  _cache (self (invalidate_all w)) = ∅ ∧
  invalidate_all (invalidate_all w) = invalidate_all w ∧
  _locks (self (invalidate_all w)) = _locks (self w).
Proof.
  intros key. split; [apply invalidate_cache|].
  split; [apply invalidate_absent|].
  split; [|split; [|done]].
  - apply invalidate_absent. rewrite invalidate_cache. apply lookup_delete_eq.
  - unfold invalidate. by destruct (_cache (self w) !! _proxy_key proxy_url).
Qed.

(** ** C8: route keys *)

(** The answer of a call depends on the manager only through the entry
    and the lock of the key of its proxy. *)
Lemma get_cookies_consults PW w w' o proxy_url force_refresh :
  let key := _proxy_key proxy_url in
  _cache (self w) !! key = _cache (self w') !! key ->
  _locks (self w) !! key = _locks (self w') !! key ->
  (get_cookies PW w o proxy_url force_refresh).2 =
  (get_cookies PW w' o proxy_url force_refresh).2.
Proof.
  intros key Hc Hl. subst key.
  assert (forall now, _is_valid (self w) now (_proxy_key proxy_url)
                      = _is_valid (self w') now (_proxy_key proxy_url))
    as Hv by (intros now; unfold _is_valid; by rewrite Hc).
  destruct (get_cookies_path PW w' o proxy_url force_refresh)
    as [ -> | c ua ts -> -> Hc' ? | -> Hm Hl'
       | c ua ts -> -> Hm Hl' Hc' ? | -> Hm Hl' Hm' ].
  - done.
  - rewrite <- Hc in Hc'. by erewrite get_cookies_hit.
  - rewrite <- Hv in Hm. rewrite <- Hl in Hl'. by rewrite get_cookies_waits.
  - rewrite <- Hv in Hm. rewrite <- Hl in Hl'. rewrite <- Hc in Hc'.
    by erewrite get_cookies_hit_locked.
  - rewrite <- Hv in Hm, Hm'. rewrite <- Hl in Hl'.
    rewrite get_cookies_fetch by done. by rewrite !finish_result.
Qed.

(** C8, as amended.  [_proxy_key] sends [None] and the empty string to
    ["__no_proxy__"] and every other string to itself, so the key of a
    non-empty proxy URL differs from the key of no proxy exactly when the
    URL is not the string ["__no_proxy__"], and two different non-empty URLs
    have different keys.  [get_cookies(p)] depends on the manager only
    through the entry and the lock of [_proxy_key p], and [invalidate(p)]
    deletes the entry of [_proxy_key p] and no other. *)
Theorem C8_route_key :
  _proxy_key None = "__no_proxy__"%string ∧
  _proxy_key (Some ""%string) = "__no_proxy__"%string ∧
  (forall s, s ≠ ""%string -> _proxy_key (Some s) = s) ∧
  (forall s, s ≠ ""%string ->
     _proxy_key (Some s) ≠ _proxy_key None <-> s ≠ "__no_proxy__"%string) ∧
  (forall s s', s ≠ ""%string -> s' ≠ ""%string -> s ≠ s' ->
     _proxy_key (Some s) ≠ _proxy_key (Some s')) ∧
  (forall PW w w' o p f,
     _cache (self w) !! _proxy_key p = _cache (self w') !! _proxy_key p ->
     _locks (self w) !! _proxy_key p = _locks (self w') !! _proxy_key p ->
     (get_cookies PW w o p f).2 = (get_cookies PW w' o p f).2) ∧
  (forall w p,
     _cache (self (invalidate w p)) !! _proxy_key p = None ∧
     forall k, k ≠ _proxy_key p ->
       _cache (self (invalidate w p)) !! k = _cache (self w) !! k).
Proof.
  split; [done|]. split; [done|].
  split; [apply _proxy_key_Some|].
  split; [|split; [|split]].
  - intros s Hs. by rewrite (_proxy_key_Some _ Hs).
  - intros s s' Hs Hs'. by rewrite !_proxy_key_Some.
  - intros. by apply get_cookies_consults.
  - intros w p. rewrite invalidate_cache. split.
    + apply lookup_delete_eq.
    + intros k Hk. by rewrite lookup_delete_ne.
Qed.

(** C8 as stated fails for the proxy URL ["__no_proxy__"]: it is not empty
    and its key is the key of no proxy.  Cookies fetched through that proxy
    are served to a caller without proxy, and invalidating for no proxy
    deletes them. *)
Lemma C8_counterexample :
  let p := Some "__no_proxy__"%string in
  let o := Oracle 0 0 0 (Some (Sample.cookies, Sample.ua)) in
  let w := (get_cookies true cf_cookie_manager o p false).1 in
  "__no_proxy__"%string ≠ ""%string ∧
  _proxy_key p = _proxy_key None ∧
  get_cookies true w (Oracle 1 1 1 None) None false
    = (w, Returned (Some (Sample.cookies, Sample.ua))) ∧
  _cache (self w) !! _proxy_key p = Some (Sample.cookies, Sample.ua, 0) ∧
  _cache (self (invalidate w None)) !! _proxy_key p = None.
Proof. by vm_compute. Qed.

(** ** C9: proxy resolution *)

Section ProxyResolution.
Import ProxyManager.

Lemma override_Some db token_id url :
  override db token_id = Some url <->
  exists tid token,
    token_id = Some tid ∧ get_token db tid = Some token ∧
    Token.proxy_url token = Some url ∧ url ≠ ""%string.
Proof.
  unfold override. split.
  - destruct token_id as [tid|]; [|done]. simpl.
    destruct (get_token db tid) as [token|] eqn:Hg; [|done]. simpl.
    destruct (truthy (Token.proxy_url token)) eqn:Ht; [|done].
    intros Hu. rewrite Hu in Ht. apply truthy_Some in Ht.
    exists tid, token. by rewrite Hg.
  - intros (tid & token & -> & Hg & Hu & Hne). simpl. rewrite Hg. simpl.
    rewrite Hu. apply truthy_Some in Hne. by rewrite Hne.
Qed.

(** C9.  [get_proxy_url(token_id)] returns the proxy URL of the token when
    an id is given, the token exists and its proxy URL is set (not [None]
    and not empty); otherwise the URL of the configuration when
    [proxy_enabled] holds and that URL is set; otherwise [None]. *)
Theorem C9_get_proxy_url db token_id :
  (forall tid token url,
     token_id = Some tid -> get_token db tid = Some token ->
     Token.proxy_url token = Some url -> url ≠ ""%string ->
     get_proxy_url db token_id = Some url) ∧
  (override db token_id = None ->
   forall url,
     ProxyConfig.proxy_enabled (get_proxy_config db) = true ->
     ProxyConfig.proxy_url (get_proxy_config db) = Some url ->
     url ≠ ""%string ->
     get_proxy_url db token_id = Some url) ∧
  (override db token_id = None ->
   ProxyConfig.proxy_enabled (get_proxy_config db) = false
   ∨ truthy (ProxyConfig.proxy_url (get_proxy_config db)) = false ->
   get_proxy_url db token_id = None) ∧
  get_proxy_url db token_id =
    match override db token_id with
    | Some url => Some url
    | None => global_proxy db
    end.
Proof.
  assert (get_proxy_url db token_id =
          match override db token_id with
          | Some url => Some url
          | None => global_proxy db
          end) as Heq.
  { unfold get_proxy_url, override.
    destruct token_id as [tid|]; [|done]. simpl.
    destruct (get_token db tid) as [token|]; [|done]. simpl.
    destruct (truthy (Token.proxy_url token)) eqn:Ht; [|done].
    destruct (Token.proxy_url token); [done|discriminate]. }
  split; [|split; [|split; [|done]]].
  - intros tid token url ? ? ? ?. rewrite Heq.
    assert (override db token_id = Some url) as ->; [|done].
    apply override_Some. eauto 10.
  - intros Ho url He Hu Hne. rewrite Heq, Ho. unfold global_proxy.
    rewrite He, Hu. apply truthy_Some in Hne. by rewrite Hne.
  - intros Ho Hg. rewrite Heq, Ho. unfold global_proxy.
    destruct Hg as [-> | ->]; [done|]. by rewrite andb_false_r.
Qed.

End ProxyResolution.

(** ** C4: the browser fails *)

Lemma _is_valid_later m now now' key :
  _is_valid m now key = false -> now <= now' -> _is_valid m now' key = false.
Proof.
  unfold _is_valid. destruct (_cache m !! key) as [[[c ua] ts]|]; [|done].
  rewrite !Qltb_ge. lra.
Qed.

(** A call that reaches line 86: the events it adds, what it returns and
    the cache it leaves. *)
Lemma get_cookies_fetch_spec w o proxy_url force_refresh :
  let key := _proxy_key proxy_url in
  negb force_refresh && _is_valid (self w) (t_check o) key = false ->
  _locks (self w) !! key ≠ Some true ->
  negb force_refresh && _is_valid (self w) (t_recheck o) key = false ->
  let r := get_cookies true w o proxy_url force_refresh in
  new_events w r.1 =
    created w key ++ [LockAcquired key; BrowserFetch proxy_url; LockReleased key] ∧
  r.2 = Returned (browser o) ∧
  _cache (self r.1) =
    match browser o with
    | Some (cookies, ua) => <[key := (cookies, ua, t_store o)]> (_cache (self w))
    | None => _cache (self w)
    end ∧
  _locks (self r.1) !! key = Some false.
Proof.
  intros key Hm Hl Hm' r. subst r key.
  rewrite get_cookies_fetch by done.
  rewrite finish_result, finish_cache, finish_locks. simpl.
  rewrite _cache_get_lock, lookup_insert_eq. repeat split; try done.
  apply new_events_app. rewrite finish_history. simpl.
  by rewrite history_get_lock, <- !app_assoc.
Qed.

(** C4.  When a call [get_cookies(proxy_url, force_refresh)] calls the
    browser and the browser has no result, the call returns [None] (it does
    not raise), the cache is the cache from before the call, the lock of the
    key is free and its release is the last event.  If the call was not
    forced, the entry of the key stays invalid at every later clock reading.
    A later call for the key that is forced, or that follows a call that
    was not forced on a clock that does not run backwards, calls the browser
    again; and whenever a later call calls the browser and gets
    [(cookies, ua)], it returns [(cookies, ua)] and stores it under the key
    with the clock of line 89. *)
Theorem C4_failed_fetch PW w o proxy_url force_refresh w' c :
  get_cookies PW w o proxy_url force_refresh = (w', c) ->
  BrowserFetch proxy_url ∈ new_events w w' ->
  browser o = None ->
  let key := _proxy_key proxy_url in
  c = Returned None ∧
  _cache (self w') = _cache (self w) ∧
  _locks (self w') !! key = Some false ∧
  last (history w') = Some (LockReleased key) ∧
  (force_refresh = false ->
   forall now, t_recheck o <= now -> _is_valid (self w') now key = false) ∧
  (forall o2 f2,
     f2 = true ∨
     (force_refresh = false ∧
      t_recheck o <= t_check o2 ∧ t_recheck o <= t_recheck o2) ->
     BrowserFetch proxy_url
       ∈ new_events w' (get_cookies PW w' o2 proxy_url f2).1) ∧
  (forall o2 f2 cookies ua,
     let r := get_cookies PW w' o2 proxy_url f2 in
     BrowserFetch proxy_url ∈ new_events w' r.1 ->
     browser o2 = Some (cookies, ua) ->
     r.2 = Returned (Some (cookies, ua)) ∧
     _cache (self r.1) !! key = Some (cookies, ua, t_store o2)).
Proof.
  intros Hg Hin Hb key. subst key.
  destruct (get_cookies_fetched_inv _ _ _ _ _ _ _ _ Hg Hin)
    as (-> & _ & Hm & Hl & Hm' & _).
  destruct (get_cookies_fetch_spec w o proxy_url force_refresh Hm Hl Hm')
    as (Hev & Hres & Hcache & Hlock).
  rewrite Hg, Hb in *. simpl in *.
  assert (force_refresh = false ->
          forall now, t_recheck o <= now ->
                      _is_valid (self w') now (_proxy_key proxy_url) = false)
    as Hstale.
  { intros -> now Hnow. simpl in Hm'.
    rewrite (_is_valid_cache _ (self w)) by done.
    by apply (_is_valid_later _ (t_recheck o)). }
  split; [done|]. split; [done|]. split; [done|]. split.
  { unfold new_events in Hev.
    rewrite <- (take_drop (length (history w)) (history w')), Hev.
    change [LockAcquired (_proxy_key proxy_url); BrowserFetch proxy_url;
            LockReleased (_proxy_key proxy_url)]
      with ([LockAcquired (_proxy_key proxy_url); BrowserFetch proxy_url]
              ++ [LockReleased (_proxy_key proxy_url)]).
    by rewrite !app_assoc, last_snoc. }
  split; [done|]. split.
  - intros o2 f2 Hretry.
    assert (negb f2 && _is_valid (self w') (t_check o2) (_proxy_key proxy_url)
              = false ∧
            negb f2 && _is_valid (self w') (t_recheck o2) (_proxy_key proxy_url)
              = false) as [H1 H2].
    { destruct Hretry as [->|(Hf & ? & ?)]; [done|].
      rewrite !(Hstale Hf) by done. by rewrite !andb_false_r. }
    destruct (get_cookies_fetch_spec w' o2 proxy_url f2) as (Hev2 & _);
      [done|by rewrite Hlock|done|].
    rewrite Hev2. apply elem_of_app. right.
    apply list_elem_of_In. simpl. tauto.
  - intros o2 f2 cookies ua Hin2 Hb2.
    destruct (get_cookies true w' o2 proxy_url f2) as [w2 c2] eqn:Hg2.
    destruct (get_cookies_fetched_inv _ _ _ _ _ _ _ _ Hg2 Hin2)
      as (_ & _ & H1 & H2 & H3 & _).
    destruct (get_cookies_fetch_spec w' o2 proxy_url f2 H1 H2 H3)
      as (_ & Hres2 & Hcache2 & _).
    rewrite Hg2, Hb2 in *. simpl in *. split; [done|].
    by rewrite Hcache2, lookup_insert_eq.
Qed.

Lemma C4_failed_fetch_witness :
  let o := Oracle 700 701 702 None in
  let r := get_cookies true Sample.cached_free o Sample.proxy false in
  _is_valid (self Sample.cached_free) 700 (_proxy_key Sample.proxy) = false ∧
  r.2 = Returned None ∧
  _cache (self r.1) = _cache (self Sample.cached_free) ∧
  _locks (self r.1) !! _proxy_key Sample.proxy = Some false.
Proof.
  split; [reflexivity|].
  pose proof (C4_failed_fetch true Sample.cached_free
                (Oracle 700 701 702 None) Sample.proxy false
                (get_cookies true Sample.cached_free (Oracle 700 701 702 None)
                             Sample.proxy false).1
                (get_cookies true Sample.cached_free (Oracle 700 701 702 None)
                             Sample.proxy false).2) as H.
  destruct H as (H1 & H2 & H3 & _).
  - reflexivity.
  - apply list_elem_of_In. vm_compute. tauto.
  - reflexivity.
  - exact (conj H1 (conj H2 H3)).
Defined.

(** ** C3: time to live *)

(** C3.  Let a call have fetched [(cookies, ua)] through the browser and
    stored it for its key at the clock reading [t0] of line 89.  Then
    [CACHE_TTL] is 600; the entry is in the cache with timestamp [t0];
    [_is_valid] holds of the key at [now] exactly when
    [now - t0 < CACHE_TTL]; a call [get_cookies(p, False)] for the key whose
    clock at line 72 is before [t0 + CACHE_TTL] returns [(cookies, ua)] and
    changes nothing, so the browser is not called; a call whose clock is at
    or after [t0 + CACHE_TTL] calls the browser, once, and returns its
    answer; and when that answer is no result the expired entry is still in
    the cache: the reader passed it over and did not delete it. *)
Theorem C3_ttl PW w0 o0 p0 f0 w1 cookies ua :
  get_cookies PW w0 o0 p0 f0 = (w1, Returned (Some (cookies, ua))) ->
  BrowserFetch p0 ∈ new_events w0 w1 ->
  let key := _proxy_key p0 in
  let t0 := t_store o0 in
  CACHE_TTL = 600 ∧
  _cache (self w1) !! key = Some (cookies, ua, t0) ∧
  (forall now, _is_valid (self w1) now key = true <-> now - t0 < CACHE_TTL) ∧
  (forall o p,
     _proxy_key p = key -> t_check o < t0 + CACHE_TTL ->
     get_cookies PW w1 o p false = (w1, Returned (Some (cookies, ua)))) ∧
  (forall o p,
     _proxy_key p = key ->
     t0 + CACHE_TTL <= t_check o -> t0 + CACHE_TTL <= t_recheck o ->
     let r := get_cookies PW w1 o p false in
     new_events w1 r.1 = [LockAcquired key; BrowserFetch p; LockReleased key] ∧
     r.2 = Returned (browser o) ∧
     (browser o = None -> _cache (self r.1) !! key = Some (cookies, ua, t0))).
Proof.
  intros Hg Hin key t0. subst key t0.
  destruct (get_cookies_fetched_inv _ _ _ _ _ _ _ _ Hg Hin)
    as (-> & _ & Hm & Hl & Hm' & _).
  destruct (get_cookies_fetch_spec w0 o0 p0 f0 Hm Hl Hm')
    as (_ & Hres & Hcache & Hlock).
  rewrite Hg in *. simpl in *.
  injection Hres as Hb. rewrite <- Hb in Hcache.
  assert (_cache (self w1) !! _proxy_key p0 = Some (cookies, ua, t_store o0))
    as Hentry by by rewrite Hcache, lookup_insert_eq.
  assert (forall now, _is_valid (self w1) now (_proxy_key p0)
                      = Qltb (now - t_store o0) CACHE_TTL) as Hv.
  { intros now. by apply _is_valid_entry with cookies ua. }
  split; [done|]. split; [done|]. split; [|split].
  - intros now. rewrite Hv. apply Qltb_lt.
  - intros o p Hp Ht. apply get_cookies_hit with (t_store o0).
    + by rewrite Hp.
    + lra.
  - intros o p Hp Ht Ht'.
    assert (forall now, t_store o0 + CACHE_TTL <= now ->
                        _is_valid (self w1) now (_proxy_key p) = false) as Hx.
    { intros now Hnow. rewrite Hp, Hv. apply Qltb_ge. lra. }
    destruct (get_cookies_fetch_spec w1 o p false) as (Hev & Hres' & Hc' & _).
    { simpl. by apply Hx. }
    { by rewrite Hp, Hlock. }
    { simpl. by apply Hx. }
    rewrite Hp in *. unfold created in Hev. rewrite Hlock in Hev.
    split; [done|]. split; [done|].
    intros Hnone. by rewrite Hc', Hnone.
Qed.

Lemma C3_ttl_witness :
  let o0 := Oracle 0 0 5 (Some (Sample.cookies, Sample.ua)) in
  let w1 := (get_cookies true cf_cookie_manager o0 Sample.proxy false).1 in
  _cache (self w1) !! _proxy_key Sample.proxy
    = Some (Sample.cookies, Sample.ua, 5) ∧
  get_cookies true w1 (Oracle 604 604 604 None) Sample.proxy false
    = (w1, Returned (Some (Sample.cookies, Sample.ua))) ∧
  new_events w1
    (get_cookies true w1 (Oracle 605 605 605 None) Sample.proxy false).1
    = [LockAcquired (_proxy_key Sample.proxy); BrowserFetch Sample.proxy;
       LockReleased (_proxy_key Sample.proxy)].
Proof.
  pose proof (C3_ttl true cf_cookie_manager
                (Oracle 0 0 5 (Some (Sample.cookies, Sample.ua)))
                Sample.proxy false
                (get_cookies true cf_cookie_manager
                   (Oracle 0 0 5 (Some (Sample.cookies, Sample.ua)))
                   Sample.proxy false).1
                Sample.cookies Sample.ua) as H.
  destruct H as (_ & H1 & _ & H2 & H3).
  - reflexivity.
  - apply list_elem_of_In. vm_compute. tauto.
  - split; [exact H1|]. split.
    + apply H2; reflexivity.
    + apply (H3 (Oracle 605 605 605 None) Sample.proxy); [reflexivity| |];
        vm_compute; discriminate.
Defined.

(** ** C6: the check under the lock *)

Lemma enter_free w now proxy_url force_refresh :
  let key := _proxy_key proxy_url in
  _locks (self w) !! key = Some false ->
  enter w now proxy_url force_refresh =
  if negb force_refresh && _is_valid (self w) now key
  then Some (lock_release (lock_acquire w key) key, cache_read w key)
  else Some (emit (lock_acquire w key) (BrowserFetch proxy_url),
             AtFetch proxy_url).
Proof. intros key Hl. unfold enter. fold key. by rewrite Hl. Qed.

Lemma enter_held w now proxy_url force_refresh :
  _locks (self w) !! _proxy_key proxy_url ≠ Some false ->
  enter w now proxy_url force_refresh = None.
Proof.
  intros Hl. unfold enter.
  by destruct (_locks (self w) !! _proxy_key proxy_url) as [[]|].
Qed.

(** C6.  A caller of [get_cookies(proxy_url, False)] that gets the lock of
    the key checks the entry again, on the cache as it is then.  If the
    entry is valid at that moment it is returned, the lock is released and
    the only events are the acquisition and the release of the lock; if
    not, the browser is called under the lock.  The browser is called only
    when no valid entry exists at that check. *)
Theorem C6_recheck_under_lock w now proxy_url :
  let key := _proxy_key proxy_url in
  _locks (self w) !! key = Some false ->
  (forall cookies ua ts,
     _cache (self w) !! key = Some (cookies, ua, ts) ->
     now - ts < CACHE_TTL ->
     enter w now proxy_url false =
       Some (lock_release (lock_acquire w key) key,
             Returned (Some (cookies, ua))) ∧
     new_events w (lock_release (lock_acquire w key) key) =
       [LockAcquired key; LockReleased key]) ∧
  (_is_valid (self w) now key = false ->
   enter w now proxy_url false =
     Some (emit (lock_acquire w key) (BrowserFetch proxy_url),
           AtFetch proxy_url)) ∧
  (forall w' c q,
     enter w now proxy_url false = Some (w', c) ->
     BrowserFetch q ∈ new_events w w' ->
     _is_valid (self w) now key = false ∧ c = AtFetch proxy_url).
Proof.
  intros key Hl. subst key. rewrite enter_free by done. simpl.
  split; [|split].
  - intros cookies ua ts Hc Ht.
    rewrite (_is_valid_entry _ _ _ _ _ _ Hc).
    apply Qltb_lt in Ht. rewrite Ht. unfold cache_read. rewrite Hc.
    split; [done|]. apply new_events_app. simpl. by rewrite <- app_assoc.
  - by intros ->.
  - intros w' c q.
    destruct (_is_valid (self w) now (_proxy_key proxy_url)); [|by intros [= <- <-]].
    intros [= <- <-] Hin. exfalso.
    rewrite (new_events_app _ _ [LockAcquired (_proxy_key proxy_url);
                                 LockReleased (_proxy_key proxy_url)]) in Hin
      by (simpl; by rewrite <- app_assoc).
    apply list_elem_of_In in Hin. simpl in Hin. intuition discriminate.
Qed.

Lemma C6_recheck_under_lock_witness :
  enter Sample.stored_while_waiting 5 Sample.proxy false =
  Some (lock_release
          (lock_acquire Sample.stored_while_waiting (_proxy_key Sample.proxy))
          (_proxy_key Sample.proxy),
        Returned (Some (Sample.cookies, Sample.ua))).
Proof.
  refine (proj1 (proj1 (C6_recheck_under_lock Sample.stored_while_waiting 5
                          Sample.proxy _)
                       Sample.cookies Sample.ua 0 _ _));
    reflexivity.
Defined.

(** ** The event loop *)

Import Loop.

Lemma start_move PW w i now p f :
  move PW w (Start i now) (Created p f) (start PW w now p f).
Proof.
  unfold start. destruct PW; simpl; [|by constructor].
  destruct (negb f && _is_valid (self w) now (_proxy_key p)) eqn:Hm;
    [|by constructor].
  apply andb_true_iff in Hm as [->%negb_true_iff Hv].
  apply _is_valid_true in Hv as (c & ua & ts & Hc & Ht).
  unfold cache_read. rewrite Hc. by econstructor.
Qed.

Lemma enter_move PW w i now p f r :
  enter w now p f = Some r -> move PW w (Enter i now) (AtLock p f) r.
Proof.
  destruct (decide (_locks (self w) !! _proxy_key p = Some false)) as [Hl|Hl];
    [|by rewrite enter_held].
  rewrite enter_free by done.
  destruct (negb f && _is_valid (self w) now (_proxy_key p)) eqn:Hm;
    intros [= <-]; [|by constructor].
  apply andb_true_iff in Hm as [->%negb_true_iff Hv].
  apply _is_valid_true in Hv as (c & ua & ts & Hc & Ht).
  unfold cache_read. rewrite Hc. by econstructor.
Qed.

(** Every step of the loop is a move of the coroutine that the label
    names. *)
Lemma resume_move PW s l s' :
  resume PW s l = Some s' ->
  exists c r,
    tasks s !! label_task l = Some c ∧ move PW (mgr s) l c r ∧
    s' = park s (label_task l) r.
Proof.
  destruct l as [i now|i now|i now result]; simpl;
    destruct (tasks s !! i) as [[p f|p f|p|?|?]|] eqn:Hi; try done.
  - intros [= <-]. eexists _, _. split; [done|]. split; [|done].
    apply start_move.
  - destruct (enter (mgr s) now p f) as [r|] eqn:He; [|done].
    intros [= <-]. eexists _, _. split; [done|]. split; [|done].
    by apply enter_move.
  - intros [= <-]. eexists _, _. split; [done|]. split; [|done].
    constructor.
Qed.

Lemma lookup_park s i r j :
  (i < length (tasks s))%nat ->
  tasks (park s i r) !! j = if decide (i = j) then Some r.2 else tasks s !! j.
Proof.
  intros Hi. unfold park. simpl. case_decide as Hij.
  - subst. by apply list_lookup_insert_eq.
  - by apply list_lookup_insert_ne.
Qed.

Lemma lookup_insert_task (l : list coroutine) i c j :
  (i < length l)%nat ->
  <[i := c]> l !! j = if decide (i = j) then Some c else l !! j.
Proof.
  intros Hi. case_decide as Hij.
  - subst. by apply list_lookup_insert_eq.
  - by apply list_lookup_insert_ne.
Qed.

Ltac upd Hlt :=
  repeat match goal with
  | H : context [<[_ := _]> _ !! _] |- _ =>
      rewrite (lookup_insert_task _ _ _ _ Hlt) in H; case_decide; simplify_eq
  | |- context [<[_ := _]> _ !! _] =>
      rewrite (lookup_insert_task _ _ _ _ Hlt); case_decide; simplify_eq
  end.

(** A coroutine leaves without touching the locks. *)
Lemma consistent_retire s w i c c' :
  consistent s ->
  tasks s !! i = Some c ->
  (forall p, c ≠ AtFetch p) ->
  finished c' = true ->
  _locks (self w) = _locks (self (mgr s)) ->
  consistent (park s i (w, c')).
Proof.
  intros [Ha Hb Hc Hd] Hi Hnf Hfin Hl.
  assert (i < length (tasks s))%nat as Hlt by by eapply lookup_lt_Some.
  constructor; unfold park; simpl; rewrite ?Hl.
  - intros j p H. upd Hlt; eauto.
  - intros j k p q H1 H2. upd Hlt; eauto.
  - intros key (j & p & Hj & Hk)%Hc. exists j, p. split; [|done].
    upd Hlt; [|done]. by destruct (Hnf p).
  - intros j p f H. upd Hlt; eauto.
Qed.

Lemma consistent_step PW s l s' :
  consistent s -> resume PW s l = Some s' -> consistent s'.
Proof.
  intros Hs (c & r & Hi & Hm & ->)%resume_move.
  assert (label_task l < length (tasks s))%nat as Hlt by by eapply lookup_lt_Some.
  destruct Hm as [i now p f Hpw|i now p ck ua ts Hpw Hck Hts|i now p f Hpw Hm
                 |i now p ck ua ts Hl Hck Hts|i now p f Hl Hm|i now p result];
    simpl in Hi, Hlt; simpl label_task.
  - by apply (consistent_retire _ _ _ _ _ Hs Hi).
  - by apply (consistent_retire _ _ _ _ _ Hs Hi).
  - destruct Hs as [Ha Hb Hc Hd]. constructor; unfold park; simpl.
    + intros j q H. upd Hlt. apply Ha in H as Hq.
      destruct (decide (_proxy_key p = _proxy_key q)) as [Heq|Hne].
      * rewrite <- Heq in *. unfold _get_lock. by rewrite Hq.
      * by rewrite _get_lock_other.
    + intros j k q q' H1 H2. upd Hlt. eauto.
    + intros key Hk.
      assert (_locks (self (mgr s)) !! key = Some true) as Hk'.
      { revert Hk. rewrite _locks_get_lock.
        destruct (_locks (self (mgr s)) !! _proxy_key p) eqn:E; [done|].
        destruct (decide (_proxy_key p = key)) as [<-|].
        - by rewrite lookup_insert_eq.
        - by rewrite lookup_insert_ne. }
      apply Hc in Hk' as (j & q & Hj & Hq). exists j, q. split; [|done].
      upd Hlt. done.
    + intros j q f' H. upd Hlt.
      * apply _get_lock_registered.
      * apply Hd in H. rewrite _locks_get_lock.
        destruct (_locks (self (mgr s)) !! _proxy_key p) eqn:E; [done|].
        destruct (decide (_proxy_key p = _proxy_key q)) as [<-|].
        -- rewrite lookup_insert_eq; eauto.
        -- by rewrite lookup_insert_ne.
  - apply (consistent_retire _ _ _ _ _ Hs Hi); [done|done|].
    simpl. rewrite insert_insert_eq. by apply insert_id.
  - destruct Hs as [Ha Hb Hc Hd]. constructor; unfold park; simpl.
    + intros j q H. upd Hlt; [apply lookup_insert_eq|].
      apply Ha in H as Hq. rewrite lookup_insert_ne; [done|].
      intros Heq. rewrite Heq in Hl. congruence.
    + intros j k q q' H1 H2 Heq. upd Hlt; try done;
        first [ by eauto
              | exfalso;
                match goal with
                | H : tasks s !! _ = Some (AtFetch _) |- _ =>
                    apply Ha in H; congruence
                end ].
    + intros key Hk. destruct (decide (_proxy_key p = key)) as [<-|Hne].
      * exists i, p. split; [|done]. by upd Hlt.
      * rewrite lookup_insert_ne in Hk by done.
        apply Hc in Hk as (j & q & Hj & Hq). exists j, q. split; [|done].
        upd Hlt. done.
    + intros j q f' H. upd Hlt. apply Hd in H.
      destruct (decide (_proxy_key p = _proxy_key q)) as [<-|].
      * rewrite lookup_insert_eq; eauto.
      * by rewrite lookup_insert_ne.
  - destruct Hs as [Ha Hb Hc Hd]. constructor; unfold park; simpl;
      rewrite ?finish_locks, ?finish_result.
    + intros j q H. upd Hlt.
      apply Ha in H as Hq. rewrite lookup_insert_ne; [done|].
      intros Heq. by pose proof (Hb _ _ _ _ Hi H Heq).
    + intros j k q q' H1 H2. upd Hlt. eauto.
    + intros key Hk. destruct (decide (_proxy_key p = key)) as [<-|Hne].
      { by rewrite lookup_insert_eq in Hk. }
      rewrite lookup_insert_ne in Hk by done.
      apply Hc in Hk as (j & q & Hj & Hq). exists j, q. split; [|done].
      upd Hlt; done.
    + intros j q f' H. upd Hlt. apply Hd in H.
      destruct (decide (_proxy_key p = _proxy_key q)) as [<-|].
      * rewrite lookup_insert_eq; eauto.
      * by rewrite lookup_insert_ne.
Qed.

Lemma initial_consistent s : initial s -> consistent s.
Proof.
  intros [Hfree Hnew].
  assert (forall i c, tasks s !! i = Some c -> fresh_call c = true) as Hc.
  { intros i c Hi. apply list_elem_of_lookup_2 in Hi.
    rewrite forallb_forall in Hnew. apply Hnew. by apply list_elem_of_In. }
  constructor.
  - intros i p Hi. by apply Hc in Hi.
  - intros i j p q Hi. by apply Hc in Hi.
  - intros key Hk. by destruct (Hfree key).
  - intros i p f Hi. by apply Hc in Hi.
Qed.

Lemma run_consistent PW schedule : forall s s',
  consistent s -> run PW s schedule = Some s' -> consistent s'.
Proof.
  induction schedule as [|l schedule IH]; intros s s' Hs; simpl.
  - by intros [= <-].
  - destruct (resume PW s l) as [s1|] eqn:Hr; [|done].
    apply IH. by apply (consistent_step PW s l).
Qed.

Lemma run_app PW s schedule schedule' :
  run PW s (schedule ++ schedule') =
  match run PW s schedule with
  | Some s' => run PW s' schedule'
  | None => None
  end.
Proof.
  revert s. induction schedule as [|l schedule IH]; intros s; simpl; [done|].
  destruct (resume PW s l); [apply IH|done].
Qed.

(** A coroutine that waits for the lock is behind a coroutine that awaits
    the browser for the same key; every other coroutine can go on. *)
Lemma progress PW s i c now result :
  consistent s ->
  tasks s !! i = Some c -> finished c = false ->
  (exists l, label_task l = i ∧ label_time l = now ∧
             match l with
             | Finish _ _ r => r = result
             | _ => True
             end ∧ is_Some (resume PW s l))
  ∨ (exists j p f q, c = AtLock p f ∧ j ≠ i ∧
       tasks s !! j = Some (AtFetch q) ∧ _proxy_key q = _proxy_key p).
Proof.
  intros Hs Hi Hfin. destruct c as [p f|p f|p|?|?]; try done.
  - left. exists (Start i now). simpl. rewrite Hi. eauto.
  - destruct (_locks (self (mgr s)) !! _proxy_key p) as [[]|] eqn:Hl.
    + right. destruct (held_by_fetching s Hs _ Hl) as (j & q & Hj & Hq).
      exists j, p, f, q. repeat split; try done. intros ->. congruence.
    + left. exists (Enter i now). simpl. rewrite Hi.
      rewrite enter_free by done. repeat split; try done.
      destruct (negb f && _); simpl; eauto.
    + destruct (waiting_registered s Hs _ _ _ Hi) as [? ?]. congruence.
  - left. exists (Finish i now result). simpl. rewrite Hi. eauto.
Qed.

Lemma some_enabled PW s now result :
  consistent s -> all_finished s = false ->
  exists l s', plain now result l ∧ resume PW s l = Some s'.
Proof.
  intros Hs Hf.
  assert (exists i c, tasks s !! i = Some c ∧ finished c = false)
    as (i & c & Hi & Hc).
  { unfold all_finished in Hf. induction (tasks s) as [|c l IH]; [done|].
    simpl in Hf. apply andb_false_iff in Hf as [Hf|Hf].
    - by exists 0%nat, c.
    - destruct (IH Hf) as (i & c' & ? & ?). by exists (S i), c'. }
  destruct (progress PW s i c now result Hs Hi Hc)
    as [(l & _ & Ht & Hr & [s' Hs'])|(j & p & f & q & _ & _ & Hj & _)].
  - by exists l, s'.
  - exists (Finish j now result). simpl. rewrite Hj. eexists. by split.
Qed.

Lemma sum_list_insert (l : list nat) i x y :
  l !! i = Some x -> (sum_list (<[i := y]> l) + x = sum_list l + y)%nat.
Proof.
  revert i. induction l as [|z l IH]; intros [|i]; simpl; try done.
  - intros [= ->]. lia.
  - intros Hi. specialize (IH _ Hi). lia.
Qed.

Lemma move_remaining PW w l c r :
  move PW w l c r -> (remaining r.2 < remaining c)%nat.
Proof. intros []; rewrite ?finish_result; simpl; lia. Qed.

Lemma resume_work PW s l s' :
  resume PW s l = Some s' -> (work s' < work s)%nat.
Proof.
  intros (c & r & Hi & Hm & ->)%resume_move. unfold work, park. simpl.
  rewrite list_fmap_insert.
  assert ((remaining <$> tasks s) !! label_task l = Some (remaining c)) as Hx
    by by rewrite list_lookup_fmap, Hi.
  pose proof (sum_list_insert _ _ _ (remaining r.2) Hx).
  apply move_remaining in Hm. lia.
Qed.

(** From every consistent state the loop can run all coroutines to their
    end, on any clock reading and with any answer of the browser. *)
Lemma completes PW now result n : forall s,
  (work s <= n)%nat -> consistent s ->
  exists schedule s',
    run PW s schedule = Some s' ∧ all_finished s' = true ∧
    Forall (plain now result) schedule.
Proof.
  induction n as [|n IH]; intros s Hn Hs;
    destruct (all_finished s) eqn:Hf;
    try (by exists [], s).
  - destruct (some_enabled PW s now result Hs Hf) as (l & s' & _ & Hr).
    apply resume_work in Hr. lia.
  - destruct (some_enabled PW s now result Hs Hf) as (l & s1 & Hl & Hr).
    destruct (IH s1) as (schedule & s' & Hrun & Hfin & Hall).
    + apply resume_work in Hr. lia.
    + apply (run_consistent PW [l] s); [done|]. simpl. by rewrite Hr.
    + exists (l :: schedule), s'. simpl. rewrite Hr.
      split; [done|]. split; [done|]. by constructor.
Qed.

Lemma plain_within_ttl t0 now result schedule :
  t0 <= now -> now < t0 + CACHE_TTL ->
  Forall (plain now result) schedule -> within_ttl t0 schedule = true.
Proof.
  intros H1 H2 Hall. unfold within_ttl. apply forallb_forall.
  intros l Hl%list_elem_of_In. rewrite Forall_forall in Hall.
  destruct (Hall _ Hl) as [-> _]. apply andb_true_iff. split.
  - by apply Qle_bool_iff.
  - by apply Qltb_lt.
Qed.

Lemma plain_browser_succeeds now r schedule :
  Forall (plain now (Some r)) schedule -> browser_succeeds schedule = true.
Proof.
  intros Hall. unfold browser_succeeds. apply forallb_forall.
  intros l Hl%list_elem_of_In. rewrite Forall_forall in Hall.
  destruct (Hall _ Hl) as [_ Hr]. by destruct l as [| |? ? []].
Qed.

(** ** Single flight *)

Lemma fetches_for_app key h h' :
  fetches_for key (h ++ h') = (fetches_for key h + fetches_for key h')%nat.
Proof. unfold fetches_for, fetches. by rewrite omap_app, filter_app, length_app. Qed.

Lemma fetches_for_cons key e h :
  fetches_for key (e :: h) =
  (match e with
   | BrowserFetch p => if decide (_proxy_key p = key) then 1 else 0
   | _ => 0
   end + fetches_for key h)%nat.
Proof.
  destruct e as [| | |p]; try done.
  unfold fetches_for. simpl. rewrite filter_cons. by case_decide.
Qed.

Lemma fetches_for_nil key : fetches_for key [] = 0%nat.
Proof. reflexivity. Qed.

Lemma fetches_for_created key w k : fetches_for key (created w k) = 0%nat.
Proof. unfold created. by destruct (_locks (self w) !! k). Qed.

Lemma fetches_for_get_lock key w k :
  fetches_for key (history (_get_lock w k)) = fetches_for key (history w).
Proof.
  rewrite history_get_lock, fetches_for_app.
  change (match _locks (self w) !! k with
          | Some _ => []
          | None => [LockCreated k]
          end) with (created w k).
  rewrite fetches_for_created. lia.
Qed.

(** A move touches the entry, the lock and the fetches of the key of its
    coroutine only, and the coroutine keeps its key until it is through. *)
Lemma move_frame PW w l c r key :
  move PW w l c r -> key_of c ≠ Some key ->
  _cache (self r.1) !! key = _cache (self w) !! key ∧
  _locks (self r.1) !! key = _locks (self w) !! key ∧
  fetches_for key (history r.1) = fetches_for key (history w) ∧
  key_of r.2 ≠ Some key.
Proof.
  intros Hm Hk.
  destruct Hm as [i now p f Hpw|i now p ck ua ts Hpw Hck Hts|i now p f Hpw Hm
                 |i now p ck ua ts Hl Hck Hts|i now p f Hl Hm|i now p result];
    simpl in Hk; assert (_proxy_key p ≠ key) as Hne by congruence;
    rewrite ?finish_cache, ?finish_locks, ?finish_history, ?finish_result;
    simpl.
  - done.
  - done.
  - rewrite _cache_get_lock, _get_lock_other, fetches_for_get_lock by done.
    done.
  - rewrite !lookup_insert_ne by done.
    rewrite !fetches_for_app, !fetches_for_cons, !fetches_for_nil.
    repeat split; try done. simpl. lia.
  - rewrite !lookup_insert_ne by done.
    rewrite !fetches_for_app, !fetches_for_cons, !fetches_for_nil.
    rewrite decide_False by done.
    repeat split; try done. simpl. lia.
  - rewrite lookup_insert_ne by done.
    rewrite fetches_for_app, fetches_for_cons, fetches_for_nil.
    repeat split; try done; try (simpl; lia).
    destruct result as [[]|]; [|done]. by rewrite lookup_insert_ne.
Qed.

Lemma _get_lock_present w key b :
  _locks (self w) !! key = Some b -> _get_lock w key = w.
Proof. unfold _get_lock. by intros ->. Qed.

Lemma role_update key ph ph' (calls l : list coroutine) i c' :
  (i < length l)%nat ->
  (forall j c0 c, calls !! j = Some c0 -> l !! j = Some c -> role key ph c0 c) ->
  (forall c0, calls !! i = Some c0 -> role key ph' c0 c') ->
  (forall j c0 c,
     j ≠ i -> calls !! j = Some c0 -> l !! j = Some c ->
     allowed key ph c -> allowed key ph' c) ->
  forall j c0 c,
    calls !! j = Some c0 -> <[i := c']> l !! j = Some c -> role key ph' c0 c.
Proof.
  intros Hlt Hold Hnew Hmono j c0 c Hc0.
  rewrite (lookup_insert_task _ _ _ _ Hlt). case_decide as Hij.
  - subst j. intros [= <-]. by apply Hnew.
  - intros Hj. specialize (Hold _ _ _ Hc0 Hj). unfold role in *.
    case_decide; [|done]. by apply (Hmono j c0).
Qed.

Lemma allowed_key key ph c :
  allowed key ph c -> key_of c = Some key ∨ finished c = true.
Proof.
  destruct ph; simpl; unfold waits_for; intros H.
  - destruct H as (p & <- & [-> | ->]); by left.
  - destruct H as [(p & <- & [-> | ->])|(p & <- & ->)]; by left.
  - destruct H as [(p & <- & [-> | ->])| ->]; [by left..|by right].
Qed.

Lemma move_unfinished PW w l c r : move PW w l c r -> finished c = false.
Proof. by intros []. Qed.

Lemma allowed_Created key ph p f :
  allowed key ph (Created p f) -> _proxy_key p = key ∧ f = false.
Proof.
  destruct ph; simpl; unfold waits_for; intros H.
  - by destruct H as (p' & <- & [[= -> ->]|[=]]).
  - by destruct H as [(p' & <- & [[= -> ->]|[=]])|(p' & _ & [=])].
  - by destruct H as [(p' & <- & [[= -> ->]|[=]])|[=]].
Qed.

Lemma allowed_AtLock key ph p f :
  allowed key ph (AtLock p f) -> _proxy_key p = key ∧ f = false.
Proof.
  destruct ph; simpl; unfold waits_for; intros H.
  - by destruct H as (p' & <- & [[=]|[= -> ->]]).
  - by destruct H as [(p' & <- & [[=]|[= -> ->]])|(p' & _ & [=])].
  - by destruct H as [(p' & <- & [[=]|[= -> ->]])|[=]].
Qed.

Lemma allowed_AtFetch key ph p :
  allowed key ph (AtFetch p) -> _proxy_key p = key ∧ ph = Flying.
Proof.
  destruct ph; simpl; unfold waits_for; intros H.
  - by destruct H as (p' & _ & [[=]|[=]]).
  - by destruct H as [(p' & _ & [[=]|[=]])|(p' & <- & [= ->])].
  - by destruct H as [(p' & _ & [[=]|[=]])|[=]].
Qed.

Lemma allowed_AtLock_intro key ph p :
  _proxy_key p = key -> allowed key ph (AtLock p false).
Proof.
  intros Hp. assert (waits_for key (AtLock p false)) by (exists p; eauto).
  destruct ph; simpl; eauto.
Qed.

(** The state after a step of a call for [key], in the phase [ph']. *)
Lemma single_flight_park key n0 calls ph ph' s i c0 w' c' :
  single_flight key n0 calls ph s ->
  (i < length (tasks s))%nat ->
  calls !! i = Some c0 -> key_of c0 = Some key ->
  _cache (self w') !! key =
    match ph' with
    | Stored (cookies, ua) ts => Some (cookies, ua, ts)
    | _ => None
    end ->
  fetches_for key (history w') = match ph' with Cold => n0 | _ => S n0 end ->
  match ph' with
  | Cold => _locks (self w') !! key ≠ Some true
  | Flying => _locks (self w') !! key = Some true
  | Stored _ _ => _locks (self w') !! key = Some false
  end ->
  allowed key ph' c' ->
  (forall j c, j ≠ i -> tasks s !! j = Some c ->
               allowed key ph c -> allowed key ph' c) ->
  single_flight key n0 calls ph' (park s i (w', c')).
Proof.
  intros [H1 H2 H4 H5 H6] Hlt Hc0 Hk0 Hcache Hcount Hlock Hal Hmono.
  constructor; unfold park; simpl; try done.
  - by rewrite length_insert.
  - apply role_update with ph; try done.
    + intros c0' Hc0'. unfold role. rewrite decide_True; [done|]. congruence.
    + intros j c0' c Hj _. by apply Hmono.
Qed.

(** A step keeps the phases.  The entry of a phase [Stored] is the answer
    of the browser in a step [Finish] of a call for [key], stamped with the
    clock of that step. *)
Lemma single_flight_step key n0 calls ph s l s' :
  single_flight key n0 calls ph s -> consistent s ->
  resume true s l = Some s' ->
  in_time key calls (stored_at ph) l = true ->
  (forall i now, l ≠ Finish i now None) ->
  exists ph',
    single_flight key n0 calls ph' s' ∧
    stored_at ph' = stamp key calls (stored_at ph) l ∧
    match ph' with
    | Stored result ts =>
        ph = ph' ∨
        (l = Finish (label_task l) ts (Some result) ∧
         for_key key calls l = true)
    | _ => True
    end.
Proof.
  intros Hsf Hs (c & r & Hi & Hm & ->)%resume_move Hin Hres.
  assert (label_task l < length (tasks s))%nat as Hlt
    by by eapply lookup_lt_Some.
  destruct (lookup_lt_is_Some_2 calls (label_task l)) as [c0 Hc0].
  { by rewrite <- (sf_length _ _ _ _ _ Hsf). }
  assert (for_key key calls l = bool_decide (key_of c0 = Some key)) as Hfor.
  { unfold for_key. by rewrite Hc0. }
  pose proof (sf_calls _ _ _ _ _ Hsf _ _ _ Hc0 Hi) as Hrole.
  destruct (decide (key_of c = Some key)) as [Hk|Hk].
  2: {
    assert (key_of c0 ≠ Some key) as Hk0.
    { intros Hk0. unfold role in Hrole. rewrite decide_True in Hrole by done.
      apply allowed_key in Hrole as [?|Hfin]; [done|].
      apply move_unfinished in Hm. congruence. }
    destruct (move_frame _ _ _ _ _ key Hm Hk) as (Hc & Hlk & Hn & Hk').
    rewrite bool_decide_eq_false_2 in Hfor by done.
    exists ph. split; [|split].
    - destruct Hsf as [H1 H2 H4 H5 H6].
      constructor; unfold park; simpl; rewrite ?Hc, ?Hn, ?Hlk; try done.
      + by rewrite length_insert.
      + apply role_update with ph; try done.
        intros c0' Hc0'. unfold role. rewrite decide_False; [done|].
        congruence.
    - unfold stamp. rewrite Hfor. by destruct l as [| |? ? []].
    - destruct ph; auto. }
  assert (key_of c0 = Some key ∧ allowed key ph c) as [Hk0 Hal].
  { unfold role in Hrole. by case_decide. }
  rewrite bool_decide_eq_true_2 in Hfor by done.
  pose proof (sf_cache _ _ _ _ _ Hsf) as Hcache.
  pose proof (sf_count _ _ _ _ _ Hsf) as Hcount.
  pose proof (sf_lock _ _ _ _ _ Hsf) as Hlock.
  destruct Hm as [i now p f Hpw|i now p ck ua ts Hpw Hck Hts|i now p f Hpw Hm
                 |i now p ck ua ts Hl Hck Hts|i now p f Hl Hm|i now p result];
    simpl in Hi, Hlt, Hc0; simpl label_task.
  - done.
  - apply allowed_Created in Hal as [<- _]. rewrite Hck in Hcache.
    destruct ph as [| |[ck' ua'] ts']; try done.
    injection Hcache as -> -> ->.
    exists (Stored (ck', ua') ts'). split; [|by split; [|left]].
    apply (single_flight_park _ _ _ _ _ _ _ _ _ _ Hsf Hlt Hc0 Hk0);
      simpl; auto.
  - apply allowed_Created in Hal as [<- ->]. simpl in Hm.
    destruct ph as [| |[ck' ua'] ts'].
    + exists Cold. split; [|by split].
      apply (single_flight_park _ _ _ _ _ _ _ _ _ _ Hsf Hlt Hc0 Hk0);
        simpl; auto.
      * by rewrite _cache_get_lock.
      * by rewrite fetches_for_get_lock.
      * by rewrite _get_lock_free.
      * by apply (allowed_AtLock_intro _ Cold).
    + exists Flying. split; [|by split].
      rewrite (_get_lock_present _ _ _ Hlock).
      apply (single_flight_park _ _ _ _ _ _ _ _ _ _ Hsf Hlt Hc0 Hk0);
        simpl; auto.
      by apply (allowed_AtLock_intro _ Flying).
    + unfold in_time in Hin. simpl in Hin. rewrite Hfor in Hin. simpl in Hin.
      rewrite (_is_valid_entry _ _ _ _ _ _ Hcache) in Hm. congruence.
  - apply allowed_AtLock in Hal as [<- _]. rewrite Hck in Hcache.
    destruct ph as [| |[ck' ua'] ts']; try done.
    injection Hcache as -> -> ->.
    exists (Stored (ck', ua') ts'). split; [|by split; [|left]].
    apply (single_flight_park _ _ _ _ _ _ _ _ _ _ Hsf Hlt Hc0 Hk0);
      simpl; auto.
    + by rewrite !fetches_for_app, !fetches_for_cons, !fetches_for_nil,
        Hcount, !Nat.add_0_r.
    + by rewrite lookup_insert_eq.
  - apply allowed_AtLock in Hal as [<- ->]. simpl in Hm.
    destruct ph as [| |[ck' ua'] ts'].
    + exists Flying. split; [|by split].
      apply (single_flight_park _ _ _ _ _ _ _ _ _ _ Hsf Hlt Hc0 Hk0);
        simpl; auto.
      * rewrite !fetches_for_app, !fetches_for_cons, !fetches_for_nil, Hcount.
        rewrite decide_True by done. simpl. lia.
      * by rewrite lookup_insert_eq.
      * right. by exists p.
    + congruence.
    + unfold in_time in Hin. simpl in Hin. rewrite Hfor in Hin. simpl in Hin.
      rewrite (_is_valid_entry _ _ _ _ _ _ Hcache) in Hm. congruence.
  - apply allowed_AtFetch in Hal as [<- ->].
    destruct result as [[ck ua]|]; [|by destruct (Hres i now)].
    exists (Stored (ck, ua) now). split; [|split].
    + apply (single_flight_park _ _ _ Flying _ _ _ _ _ _ Hsf Hlt Hc0 Hk0);
        rewrite ?finish_cache, ?finish_history, ?finish_locks; simpl; auto.
      * by rewrite lookup_insert_eq.
      * by rewrite !fetches_for_app, !fetches_for_cons, !fetches_for_nil,
          Hcount, !Nat.add_0_r.
      * by rewrite lookup_insert_eq.
      * intros j c Hj Hc [?|(q & Hq & ->)]; [by left|].
        destruct Hj. by apply (fetching_alone s Hs j i q p).
    + unfold stamp. by rewrite Hfor.
    + by right.
Qed.

Lemma run_single_flight key n0 calls schedule : forall ph s s',
  single_flight key n0 calls ph s -> consistent s ->
  checks_in_time key calls (stored_at ph) schedule = true ->
  browser_succeeds schedule = true ->
  run true s schedule = Some s' ->
  exists ph',
    single_flight key n0 calls ph' s' ∧
    match ph' with
    | Stored result ts =>
        ph = ph' ∨
        exists i, In (Finish i ts (Some result)) schedule ∧
                  calls !! i ≫= key_of = Some key
    | _ => True
    end.
Proof.
  induction schedule as [|l schedule IH]; intros ph s s' Hsf Hs; simpl.
  - intros _ _ [= <-]. exists ph. split; [done|]. destruct ph; auto.
  - intros [Hl Hrest]%andb_true_iff [Hok Hoks]%andb_true_iff.
    destruct (resume true s l) as [s1|] eqn:Hr; [|done]. intros Hrun.
    destruct (single_flight_step _ _ _ _ _ _ _ Hsf Hs Hr Hl)
      as (ph1 & Hsf1 & Hst & Hfrom1).
    { intros i now ->. discriminate. }
    rewrite <- Hst in Hrest.
    destruct (IH ph1 s1 s' Hsf1 (consistent_step true s l s1 Hs Hr)
                Hrest Hoks Hrun) as (ph' & Hsf' & Hfrom).
    exists ph'. split; [done|].
    destruct ph' as [| |result ts]; [done..|].
    destruct Hfrom as [->|(i & Hin & Hi)].
    + destruct Hfrom1 as [->|[Hfin Hfor]]; [by left|].
      right. exists (label_task l). split; [left; by rewrite <- Hfin|].
      by apply bool_decide_eq_true in Hfor.
    + right. exists i. split; [by right|done].
Qed.

(** A schedule whose clock readings lie in a window shorter than the time
    to live has all its checks in time. *)
Lemma within_ttl_checks key calls t0 schedule : forall stored,
  match stored with Some ts => t0 <= ts | None => True end ->
  within_ttl t0 schedule = true ->
  checks_in_time key calls stored schedule = true.
Proof.
  unfold within_ttl.
  induction schedule as [|l schedule IH]; intros stored Hst; simpl; [done|].
  rewrite !andb_true_iff, Qle_bool_iff, Qltb_lt. intros [[H0 H1] Hrest].
  split.
  - unfold in_time.
    destruct l as [i now|i now|i now r], stored as [ts|]; try done;
      simpl in H0, H1; apply orb_true_iff; right; apply Qltb_lt; lra.
  - apply IH; [|done]. unfold stamp.
    destruct l as [i now|i now|i now [r|]]; try done.
    by destruct (for_key key calls (Finish i now (Some r))).
Qed.

Lemma initial_single_flight key s :
  initial s -> _cache (self (mgr s)) !! key = None ->
  unforced key (tasks s) = true ->
  single_flight key (fetches_for key (history (mgr s))) (tasks s) Cold s.
Proof.
  intros [Hfree Hnew] Hcold Hun. constructor; try done.
  intros i c0 c Hc0 Hc. rewrite Hc0 in Hc. injection Hc as <-.
  unfold role. case_decide as Hk; [|done]. simpl.
  apply list_elem_of_lookup_2, list_elem_of_In in Hc0.
  unfold unforced in Hun. rewrite forallb_forall in Hun.
  specialize (Hun _ Hc0). rewrite forallb_forall in Hnew.
  specialize (Hnew _ Hc0). destruct c0 as [p f| | | |]; try done.
  simpl in Hk. injection Hk as Hk. exists p. split; [done|]. left.
  destruct f; [|done]. by rewrite bool_decide_eq_true_2 in Hun.
Qed.

Lemma single_flight_end key n0 calls ph s :
  single_flight key n0 calls ph s -> consistent s ->
  has_call key calls = true -> all_finished s = true ->
  exists result ts, ph = Stored result ts.
Proof.
  intros Hsf Hs Hcall Hfin.
  assert (forall i c, tasks s !! i = Some c -> finished c = true) as Hall.
  { intros i c Hi. unfold all_finished in Hfin. rewrite forallb_forall in Hfin.
    by apply Hfin, list_elem_of_In, (list_elem_of_lookup_2 _ i). }
  destruct ph as [| |result ts]; [| |by eauto]; exfalso.
  - unfold has_call in Hcall. apply existsb_exists in Hcall as (c0 & Hin & Hk).
    apply bool_decide_eq_true in Hk.
    apply list_elem_of_In, list_elem_of_lookup in Hin as [i Hc0].
    destruct (lookup_lt_is_Some_2 (tasks s) i) as [c Hc].
    { rewrite (sf_length _ _ _ _ _ Hsf). by eapply lookup_lt_Some. }
    pose proof (sf_calls _ _ _ _ _ Hsf _ _ _ Hc0 Hc) as Hrole.
    unfold role in Hrole. rewrite decide_True in Hrole by done.
    destruct Hrole as (p & _ & [-> | ->]); by apply Hall in Hc.
  - destruct (held_by_fetching s Hs key) as (j & q & Hj & _).
    { apply (sf_lock _ _ _ _ _ Hsf). }
    by apply Hall in Hj.
Qed.

(** ** C2: one fetch per key *)

(** C2.  Run any calls of [get_cookies] on a manager whose locks are free,
    under any schedule of the loop.  In every state that is reached:
    no two coroutines await the browser for the same key; a coroutine that
    is not through can take its next step unless it waits for a lock, and
    then another coroutine awaits the browser for the same key, so that
    calls for different keys never wait for each other; and the loop can
    run every coroutine to its end.  If playwright is available, the cache
    had no entry for [key], no call for [key] is forced and there is one,
    every check of the entry of [key] (lines 72 and 81) that follows the
    store of line 89 reads the clock less than [CACHE_TTL] after the store,
    the browser had a result whenever it answered and all coroutines are
    through, then the browser was called exactly once for [key], a call for
    [key] received its answer in a step [Finish] of the schedule, the cache
    holds that answer with the clock of that step, and every call for [key]
    returned that answer. *)
Theorem C2_single_flight PW s0 schedule s :
  initial s0 -> run PW s0 schedule = Some s ->
  (forall i j p q,
     tasks s !! i = Some (AtFetch p) -> tasks s !! j = Some (AtFetch q) ->
     _proxy_key p = _proxy_key q -> i = j) ∧
  (forall i c now result,
     tasks s !! i = Some c -> finished c = false ->
     (exists l, label_task l = i ∧ plain now result l ∧
                is_Some (resume PW s l))
     ∨ (exists j q, j ≠ i ∧ tasks s !! j = Some (AtFetch q) ∧
                    key_of c = Some (_proxy_key q))) ∧
  (forall now result,
     exists schedule' s',
       run PW s schedule' = Some s' ∧ all_finished s' = true ∧
       Forall (plain now result) schedule') ∧
  (forall key,
     PW = true ->
     _cache (self (mgr s0)) !! key = None ->
     unforced key (tasks s0) = true -> has_call key (tasks s0) = true ->
     checks_in_time key (tasks s0) None schedule = true ->
     browser_succeeds schedule = true ->
     all_finished s = true ->
     fetches_for key (history (mgr s))
       = S (fetches_for key (history (mgr s0))) ∧
     exists j now cookies ua,
       In (Finish j now (Some (cookies, ua))) schedule ∧
       tasks s0 !! j ≫= key_of = Some key ∧
       _cache (self (mgr s)) !! key = Some (cookies, ua, now) ∧
       forall i c0,
         tasks s0 !! i = Some c0 -> key_of c0 = Some key ->
         tasks s !! i = Some (Returned (Some (cookies, ua)))).
Proof.
  intros Hinit Hrun.
  pose proof (initial_consistent _ Hinit) as Hs0.
  pose proof (run_consistent _ _ _ _ Hs0 Hrun) as Hs.
  split; [apply (fetching_alone s Hs)|]. split; [|split].
  - intros i c now result Hi Hc.
    destruct (progress PW s i c now result Hs Hi Hc)
      as [(l & ? & ? & ? & ?)|(j & p & f & q & -> & ? & ? & Hq)].
    + left. by exists l.
    + right. exists j, q. simpl. by rewrite Hq.
  - intros now result. by apply (completes PW now result (work s)).
  - intros key -> Hcold Hun Hcall Hwin Hok Hfin.
    pose proof (initial_single_flight key s0 Hinit Hcold Hun) as Hsf0.
    destruct (run_single_flight _ _ _ _ _ _ _ Hsf0 Hs0 Hwin Hok Hrun)
      as (ph & Hsf & Hfrom).
    destruct (single_flight_end _ _ _ _ _ Hsf Hs Hcall Hfin)
      as ([cookies ua] & ts & ->).
    split; [apply (sf_count _ _ _ _ _ Hsf)|].
    destruct Hfrom as [[=]|(j & Hin & Hj)].
    exists j, ts, cookies, ua. split; [done|]. split; [done|].
    split; [apply (sf_cache _ _ _ _ _ Hsf)|].
    intros i c0 Hc0 Hk.
    destruct (lookup_lt_is_Some_2 (tasks s) i) as [c Hc].
    { rewrite (sf_length _ _ _ _ _ Hsf). by eapply lookup_lt_Some. }
    pose proof (sf_calls _ _ _ _ _ Hsf _ _ _ Hc0 Hc) as Hrole.
    unfold role in Hrole. rewrite decide_True in Hrole by done.
    destruct Hrole as [(p & _ & Hw)| ->]; [|done].
    assert (finished c = true) as Hf.
    { unfold all_finished in Hfin. rewrite forallb_forall in Hfin.
      by apply Hfin, list_elem_of_In, (list_elem_of_lookup_2 _ i). }
    by destruct Hw as [-> | ->].
Qed.

Lemma initial_calls : initial Sample.calls.
Proof.
  split; [|reflexivity]. intros key. simpl. rewrite lookup_empty. discriminate.
Defined.

Lemma C2_single_flight_witness :
  let key := _proxy_key Sample.proxy in
  fetches_for key (history (mgr Sample.outcome)) = 1%nat ∧
  exists j now cookies ua,
    In (Finish j now (Some (cookies, ua))) Sample.schedule ∧
    tasks Sample.calls !! j ≫= key_of = Some key ∧
    _cache (self (mgr Sample.outcome)) !! key = Some (cookies, ua, now) ∧
    forall i c0,
      tasks Sample.calls !! i = Some c0 -> key_of c0 = Some key ->
      tasks Sample.outcome !! i = Some (Returned (Some (cookies, ua))).
Proof.
  refine (proj2 (proj2 (proj2
            (C2_single_flight true Sample.calls Sample.schedule Sample.outcome
               initial_calls _)))
            (_proxy_key Sample.proxy) _ _ _ _ _ _ _);
    reflexivity.
Defined.

(** C2 as stated fails: the claim has no condition on the clock.  Two calls
    through the same proxy are issued together on the manager as
    constructed, the cache has no entry for the key, neither call is forced
    and the browser has a result each time it answers.  The second call
    waits for the lock while the first one fetches and stores its result at
    time 5, and is resumed at time 700: the check of line 81 finds the
    entry expired, so the browser is called a second time for the key and
    the two calls return different cookies. *)
Lemma C2_counterexample :
  let key := _proxy_key Sample.proxy in
  initial Sample.twins ∧
  run true Sample.twins Sample.late = Some Sample.apart ∧
  _cache (self (mgr Sample.twins)) !! key = None ∧
  unforced key (tasks Sample.twins) = true ∧
  has_call key (tasks Sample.twins) = true ∧
  browser_succeeds Sample.late = true ∧
  all_finished Sample.apart = true ∧
  fetches_for key (history (mgr Sample.twins)) = 0%nat ∧
  fetches_for key (history (mgr Sample.apart)) = 2%nat ∧
  tasks Sample.apart =
    [Returned (Some (Sample.cookies, Sample.ua));
     Returned (Some (Sample.fresh, Sample.ua))] ∧
  Sample.cookies ≠ Sample.fresh ∧
  ~ (fetches_for key (history (mgr Sample.apart))
       = S (fetches_for key (history (mgr Sample.twins))) ∧
     exists result,
       forall i c0,
         tasks Sample.twins !! i = Some c0 -> key_of c0 = Some key ->
         tasks Sample.apart !! i = Some (Returned (Some result))).
Proof.
  assert (Sample.cookies ≠ Sample.fresh) as Hne.
  { intros H.
    assert (Sample.cookies !! "cf_clearance"%string
            = Sample.fresh !! "cf_clearance"%string) as Hl by by rewrite H.
    vm_compute in Hl. discriminate. }
  split.
  { split; [|reflexivity]. intros k. simpl. rewrite lookup_empty.
    discriminate. }
  repeat (split; [reflexivity|]).
  split; [done|]. intros [H _]. vm_compute in H. discriminate.
Qed.

(** * Further properties of the cookie manager *)

Import Ops.

Lemma run_ops_invariant PW (P : state -> Prop) :
  (forall s o s', P s -> apply PW s o = Some s' -> P s') ->
  forall ops s s', P s -> run_ops PW s ops = Some s' -> P s'.
Proof.
  intros Hstep. induction ops as [|o ops IH]; intros s s' Hs; simpl.
  - by intros [= <-].
  - destruct (apply PW s o) as [s1|] eqn:Ho; [|done].
    apply IH. by apply (Hstep s o).
Qed.

Lemma move_not_raised PW w l c r e : move PW w l c r -> r.2 ≠ Raised e.
Proof. intros []; rewrite ?finish_result; done. Qed.

(** ** C1: the cache hit *)

(** Without playwright every call returns at line 67 and nothing is ever
    stored (line 89 is behind the guard of line 65): the cache of the
    manager as constructed stays empty. *)
Lemma unavailable_stores_nothing s0 ops s :
  _cache (self (mgr s0)) = ∅ ->
  forallb fresh_call (tasks s0) = true ->
  run_ops false s0 ops = Some s ->
  _cache (self (mgr s)) = ∅.
Proof.
  intros Hc0 Hnew Hrun.
  cut (_cache (self (mgr s)) = ∅ ∧
       forall i c, tasks s !! i = Some c ->
                   fresh_call c = true ∨ finished c = true).
  { by intros [? _]. }
  apply (run_ops_invariant false
           (fun s => _cache (self (mgr s)) = ∅ ∧
                     forall i c, tasks s !! i = Some c ->
                                 fresh_call c = true ∨ finished c = true))
    with ops s0; [| |done].
  - intros s1 o s2 [Hc Ht] Ho. destruct o as [l|p|]; simpl in Ho.
    + apply resume_move in Ho as (c & r & Hi & Hm & ->).
      assert (label_task l < length (tasks s1))%nat as Hlt
        by by eapply lookup_lt_Some.
      pose proof (Ht _ _ Hi) as HKind.
      destruct Hm as [i now q f Hpw|i now q ck ua ts Hpw _ _|i now q f Hpw _
                     |i now q ck ua ts _ _ _|i now q f _ _|i now q result];
        simpl in HKind; try done; try (by destruct HKind).
      split; [done|]. intros j c. unfold park. simpl.
      rewrite (lookup_insert_task _ _ _ _ Hlt). case_decide.
      * intros [= <-]. by right.
      * apply Ht.
    + injection Ho as <-. simpl. split; [|done].
      unfold invalidate. by rewrite Hc, lookup_empty.
    + injection Ho as <-. by split.
  - split; [done|]. intros i c Hi. left.
    apply list_elem_of_lookup_2, list_elem_of_In in Hi.
    rewrite forallb_forall in Hnew. by apply Hnew.
Qed.

(** C1.  Take the manager as constructed (line 217), issue any calls of
    [get_cookies] and let the loop run any of their steps, with
    invalidations in between, playwright being available or not.  In every
    state that is reached, if the cache holds an entry for the key of
    [proxy_url] that is younger than [CACHE_TTL] at line 72, then
    [get_cookies(proxy_url, False)] returns the cookies and the user agent
    of the entry and leaves the manager and its history as they were: no
    lock is created, taken or released, whatever the state of the locks,
    and the browser is not called.  A call that the loop has not run yet
    returns them in its first step, without suspending. *)
Theorem C1_cached_entry_served PW s0 ops s o proxy_url cookies ua ts :
  mgr s0 = cf_cookie_manager ->
  forallb fresh_call (tasks s0) = true ->
  run_ops PW s0 ops = Some s ->
  _cache (self (mgr s)) !! _proxy_key proxy_url = Some (cookies, ua, ts) ->
  t_check o - ts < CACHE_TTL ->
  get_cookies PW (mgr s) o proxy_url false
    = (mgr s, Returned (Some (cookies, ua))) ∧
  forall i,
    tasks s !! i = Some (Created proxy_url false) ->
    resume PW s (Start i (t_check o))
      = Some (park s i (mgr s, Returned (Some (cookies, ua)))).
Proof.
  intros Hm Hnew Hrun Hc Ht. destruct PW.
  2: { rewrite (unavailable_stores_nothing s0 ops s) in Hc; try done.
       by rewrite Hm. }
  split; [by apply (get_cookies_hit _ _ _ _ _ ts)|].
  intros i Hi. simpl. rewrite Hi. unfold start, cache_read. simpl.
  rewrite (_is_valid_entry _ _ _ _ _ _ Hc), Hc.
  apply Qltb_lt in Ht. by rewrite Ht.
Qed.

Lemma C1_cached_entry_served_witness :
  _locks (self (mgr Demo.served)) !! _proxy_key Sample.proxy = Some true ∧
  get_cookies true (mgr Demo.served) (Oracle 604 604 604 None)
              Sample.proxy false
    = (mgr Demo.served, Returned (Some (Sample.cookies, Sample.ua))) ∧
  forall i,
    tasks Demo.served !! i = Some (Created Sample.proxy false) ->
    resume true Demo.served (Start i 604)
      = Some (park Demo.served i
                (mgr Demo.served,
                 Returned (Some (Sample.cookies, Sample.ua)))).
Proof.
  split; [reflexivity|].
  apply (C1_cached_entry_served true Demo.three_calls Demo.busy Demo.served
           (Oracle 604 604 604 None) Sample.proxy
           Sample.cookies Sample.ua 5);
    reflexivity.
Defined.

(** ** The [KeyError] of the cache reads *)

(** X1.  The cache reads of lines 73 and 82 never raise [KeyError]: each
    of them follows a check of [_is_valid] for the same key with no
    suspension point in between, so that no invalidation comes between the
    check and the read.  A call alone does not end in this [KeyError], and
    in the loop, with invalidations between the steps, no coroutine does.
    The [KeyError] is the only exception of the model: a cancellation at a
    suspension point, which [get_cookies] does not catch, is not part of
    it. *)
Theorem get_cookies_no_KeyError :
  (forall PW w o proxy_url force_refresh,
     (get_cookies PW w o proxy_url force_refresh).2
       ≠ Raised "KeyError"%string) ∧
  (forall PW s0 ops s,
     initial s0 -> run_ops PW s0 ops = Some s ->
     forall i, tasks s !! i ≠ Some (Raised "KeyError"%string)).
Proof.
  split.
  - intros PW w o p f.
    destruct (get_cookies_path PW w o p f); rewrite ?finish_result; done.
  - intros PW s0 ops s [_ Hnew] Hrun.
    apply (run_ops_invariant PW
             (fun s => forall i, tasks s !! i ≠ Some (Raised "KeyError"%string)))
      with ops s0; [| |done].
    + intros s1 o s2 Hs1. destruct o as [l| |]; simpl.
      * intros (c & r & Hi & Hm & ->)%resume_move i. unfold park. simpl.
        rewrite lookup_insert_task by by eapply lookup_lt_Some.
        case_decide; [|done]. intros [= Hr].
        by apply move_not_raised with (e := "KeyError"%string) in Hm.
      * by intros [= <-].
      * by intros [= <-].
    + intros i Hi. apply list_elem_of_lookup_2, list_elem_of_In in Hi.
      rewrite forallb_forall in Hnew. by apply Hnew in Hi.
Qed.

(** X2.  What a call returns is what the cache holds afterwards: a call
    that returns [(cookies, ua)] leaves an entry with these cookies and this
    user agent under its key, either the entry that was there or a new one
    with the clock of line 89; a call that returns [None] leaves the cache
    as it was; a call that stays suspended on the lock changes nothing. *)
Theorem get_cookies_result_cached PW w o proxy_url force_refresh :
  let key := _proxy_key proxy_url in
  let r := get_cookies PW w o proxy_url force_refresh in
  match r.2 with
  | Returned (Some (cookies, ua)) =>
      exists ts, _cache (self r.1) !! key = Some (cookies, ua, ts) ∧
                 (ts = t_store o ∨ _cache (self w) !! key = Some (cookies, ua, ts))
  | Returned None => _cache (self r.1) = _cache (self w)
  | AtLock _ _ => r.1 = w
  | _ => False
  end.
Proof.
  intros key r. subst key r.
  destruct (get_cookies_path PW w o proxy_url force_refresh)
    as [?|c ua ts ? ? Hc ?|? ? ?|c ua ts ? ? ? Hl Hc ?|? ? Hl ?]; simpl.
  - done.
  - eauto.
  - done.
  - exists ts. rewrite _cache_get_lock. eauto.
  - rewrite finish_result, finish_cache. simpl. rewrite _cache_get_lock.
    destruct (browser o) as [[c ua]|]; [|done].
    exists (t_store o). rewrite lookup_insert_eq. eauto.
Qed.

(** X3.  One call calls the browser at most once, and for its own proxy:
    there is no retry inside [get_cookies]. *)
Theorem get_cookies_fetches_once PW w o proxy_url force_refresh :
  let r := get_cookies PW w o proxy_url force_refresh in
  fetches (new_events w r.1) = [] ∨ fetches (new_events w r.1) = [proxy_url].
Proof.
  intros r. subst r.
  destruct (path_events _ _ _ _ _ _ (get_cookies_path PW w o proxy_url force_refresh))
    as [->|[->|(_ & _ & _ & _ & _ & ->)]]; unfold fetches, created.
  - by left.
  - left. by destruct (_locks (self w) !! _proxy_key proxy_url).
  - right. by destruct (_locks (self w) !! _proxy_key proxy_url).
Qed.

(** X4.  After [invalidate(p)] or [invalidate_all()] the next call for the
    key goes to the browser, whatever the clock and however fresh the entry
    was: with playwright available and the lock of the key free, the call
    takes the lock, calls the browser once and returns its answer. *)
Theorem invalidate_forces_fetch w o proxy_url force_refresh :
  _locks (self w) !! _proxy_key proxy_url ≠ Some true ->
  let key := _proxy_key proxy_url in
  (let r := get_cookies true (invalidate w proxy_url) o proxy_url force_refresh in
   new_events (invalidate w proxy_url) r.1 =
     created w key ++ [LockAcquired key; BrowserFetch proxy_url; LockReleased key] ∧
   r.2 = Returned (browser o)) ∧
  (let r := get_cookies true (invalidate_all w) o proxy_url force_refresh in
   new_events (invalidate_all w) r.1 =
     created w key ++ [LockAcquired key; BrowserFetch proxy_url; LockReleased key] ∧
   r.2 = Returned (browser o)).
Proof.
  intros Hl key. subst key.
  assert (forall w', _cache (self w') !! _proxy_key proxy_url = None ->
                     _locks (self w') = _locks (self w) ->
          let r := get_cookies true w' o proxy_url force_refresh in
          new_events w' r.1 =
            created w (_proxy_key proxy_url)
              ++ [LockAcquired (_proxy_key proxy_url); BrowserFetch proxy_url;
                  LockReleased (_proxy_key proxy_url)] ∧
          r.2 = Returned (browser o)) as H.
  { intros w' Hc Hlk.
    destruct (get_cookies_fetch_spec w' o proxy_url force_refresh)
      as (Hev & Hres & _).
    - by rewrite (_is_valid_absent _ _ _ Hc), andb_false_r.
    - by rewrite Hlk.
    - by rewrite (_is_valid_absent _ _ _ Hc), andb_false_r.
    - split; [|done]. rewrite Hev. unfold created. by rewrite Hlk. }
  split; apply H; try done.
  - rewrite invalidate_cache. apply lookup_delete_eq.
  - unfold invalidate. by destruct (_cache (self w) !! _proxy_key proxy_url).
Qed.

(** X5.  Last writer wins between an invalidation and the store of line
    89: an invalidation that lands while the browser is awaited is
    overwritten by the store, and one that lands after the store removes
    the new entry; neither touches the lock that the coroutine holds. *)
Theorem store_overwrites_invalidation w now proxy_url cookies ua :
  let key := _proxy_key proxy_url in
  let stored w := (finish w now proxy_url (Some (cookies, ua))).1 in
  _cache (self (stored (invalidate w proxy_url))) !! key
    = Some (cookies, ua, now) ∧
  _cache (self (stored (invalidate_all w))) = {[ key := (cookies, ua, now) ]} ∧
  _cache (self (invalidate (stored w) proxy_url)) !! key = None ∧
  _cache (self (invalidate_all (stored w))) = ∅ ∧
  _locks (self (invalidate w proxy_url)) !! key = _locks (self w) !! key ∧
  _locks (self (invalidate_all w)) !! key = _locks (self w) !! key.
Proof.
  intros key stored. subst key stored. simpl.
  split; [by rewrite lookup_insert_eq|].
  split; [by rewrite insert_empty|].
  split.
  { rewrite invalidate_cache. simpl. by rewrite lookup_delete_eq. }
  split; [done|]. split; [|done].
  unfold invalidate. by destruct (_cache (self w) !! _proxy_key proxy_url).
Qed.

Lemma invalidate_locks w proxy_url :
  _locks (self (invalidate w proxy_url)) = _locks (self w).
Proof. unfold invalidate. by destruct (_cache (self w) !! _proxy_key proxy_url). Qed.

Lemma invalidate_history w proxy_url :
  history (invalidate w proxy_url) = history w.
Proof. unfold invalidate. by destruct (_cache (self w) !! _proxy_key proxy_url). Qed.

Lemma consistent_same_locks s w :
  consistent s -> _locks (self w) = _locks (self (mgr s)) ->
  consistent (State w (tasks s)).
Proof. intros [Ha Hb Hc Hd] Hl. constructor; simpl; rewrite ?Hl; eauto. Qed.

Lemma consistent_apply PW s o s' :
  consistent s -> apply PW s o = Some s' -> consistent s'.
Proof.
  intros Hs. destruct o as [l|p|]; simpl.
  - by apply consistent_step.
  - intros [= <-]. apply consistent_same_locks; [done|]. apply invalidate_locks.
  - intros [= <-]. by apply consistent_same_locks.
Qed.

Lemma run_ops_consistent PW ops s s' :
  consistent s -> run_ops PW s ops = Some s' -> consistent s'.
Proof.
  apply (run_ops_invariant PW consistent). intros s1 o s2.
  apply consistent_apply.
Qed.

(** X6.  With invalidations between the steps of the loop, the locks still
    follow the coroutines: a lock is held exactly when a coroutine awaits
    the browser for its key, no two coroutines await the browser for the
    same key, and once all coroutines are through every lock is free. *)
Theorem locks_follow_fetches PW s0 ops s :
  initial s0 -> run_ops PW s0 ops = Some s ->
  (forall key,
     _locks (self (mgr s)) !! key = Some true <->
     exists i p, tasks s !! i = Some (AtFetch p) ∧ _proxy_key p = key) ∧
  (forall i j p q,
     tasks s !! i = Some (AtFetch p) -> tasks s !! j = Some (AtFetch q) ->
     _proxy_key p = _proxy_key q -> i = j) ∧
  (all_finished s = true -> locks_free (mgr s)).
Proof.
  intros Hinit Hrun.
  pose proof (run_ops_consistent _ _ _ _ (initial_consistent _ Hinit) Hrun)
    as Hs.
  split; [|split].
  - intros key. split; [apply (held_by_fetching s Hs)|].
    intros (i & p & Hi & <-). by apply (fetching_holds s Hs i).
  - apply (fetching_alone s Hs).
  - intros Hfin key Hk.
    destruct (held_by_fetching s Hs key Hk) as (i & p & Hi & _).
    unfold all_finished in Hfin. rewrite forallb_forall in Hfin.
    apply list_elem_of_lookup_2, list_elem_of_In, Hfin in Hi. done.
Qed.

Lemma move_locks_grow PW w l c r key :
  move PW w l c r ->
  is_Some (_locks (self w) !! key) -> is_Some (_locks (self r.1) !! key).
Proof.
  intros Hm Hk.
  destruct Hm as [i now p f Hpw|i now p ck ua ts Hpw Hck Hts|i now p f Hpw Hm
                 |i now p ck ua ts Hl Hck Hts|i now p f Hl Hm|i now p result];
    rewrite ?finish_locks; simpl; try done.
  - rewrite _locks_get_lock.
    destruct (_locks (self w) !! _proxy_key p) eqn:E; [done|].
    by apply lookup_insert_is_Some'; right.
  - apply lookup_insert_is_Some'; right. by apply lookup_insert_is_Some'; right.
  - by apply lookup_insert_is_Some'; right.
  - by apply lookup_insert_is_Some'; right.
Qed.

Lemma apply_locks_grow PW s o s' key :
  apply PW s o = Some s' ->
  is_Some (_locks (self (mgr s)) !! key) ->
  is_Some (_locks (self (mgr s')) !! key).
Proof.
  destruct o as [l|p|]; simpl.
  - intros (c & r & Hi & Hm & ->)%resume_move. by apply (move_locks_grow PW _ l c).
  - intros [= <-]. simpl. by rewrite invalidate_locks.
  - by intros [= <-].
Qed.

Lemma run_ops_locks_grow PW s ops s' key :
  run_ops PW s ops = Some s' ->
  is_Some (_locks (self (mgr s)) !! key) ->
  is_Some (_locks (self (mgr s')) !! key).
Proof.
  intros Hrun Hk. revert Hrun.
  apply (run_ops_invariant PW
           (fun s => is_Some (_locks (self (mgr s)) !! key))); [|done].
  intros s1 o s2 H1 Ho. by apply (apply_locks_grow PW s1 o).
Qed.

(** X7.  A lock is never removed from [_locks]: whatever the coroutines
    and the invalidations do, a key that has a lock keeps it, so that all
    callers of a key meet on the same lock. *)
Theorem locks_never_removed PW s ops s' key :
  run_ops PW s ops = Some s' ->
  is_Some (_locks (self (mgr s)) !! key) ->
  is_Some (_locks (self (mgr s')) !! key).
Proof.
  intros Hrun Hk. revert Hrun.
  apply (run_ops_invariant PW
           (fun s => is_Some (_locks (self (mgr s)) !! key))); [|done].
  intros s1 o s2 H1 Ho. by apply (apply_locks_grow PW s1 o).
Qed.

Lemma creations_app key h h' :
  creations key (h ++ h') = (creations key h + creations key h')%nat.
Proof. unfold creations. by rewrite List.filter_app, length_app. Qed.

Lemma registered_same w w' key :
  (is_Some (_locks (self w') !! key) <-> is_Some (_locks (self w) !! key)) ->
  negb (registered w key) && registered w' key = false.
Proof.
  intros H. unfold registered. rewrite (bool_decide_ext _ _ H).
  apply andb_negb_l.
Qed.

Lemma creations_snoc key h e :
  creations key (h ++ [e]) =
  (creations key h + if is_creation key e then 1 else 0)%nat.
Proof.
  rewrite creations_app. unfold creations at 2. simpl.
  by destruct (is_creation key e).
Qed.

(** The events of a move create the lock of [key] exactly when the move
    registers it. *)
Lemma move_creations PW w l c r key :
  move PW w l c r ->
  (forall p, c = AtFetch p -> is_Some (_locks (self w) !! _proxy_key p)) ->
  creations key (history r.1) =
  (creations key (history w)
   + if negb (registered w key) && registered r.1 key then 1 else 0)%nat.
Proof.
  intros Hm Hreg.
  assert (forall k b b', _locks (self w) !! k = Some b ->
            is_Some (<[k := b']> (_locks (self w)) !! key)
            <-> is_Some (_locks (self w) !! key)) as Hins.
  { intros k b b' Hk. rewrite lookup_insert_is_Some. split.
    - intros [<-|[_ H]]; [rewrite Hk; eauto|done].
    - intros H. destruct (decide (k = key)); [by left|by right]. }
  destruct Hm as [i now p f Hpw|i now p ck ua ts Hpw Hck Hts|i now p f Hpw Hm
                 |i now p ck ua ts Hl Hck Hts|i now p f Hl Hm|i now p result].
  - simpl. rewrite registered_same by done. lia.
  - simpl. rewrite registered_same by done. lia.
  - simpl. unfold _get_lock.
    destruct (_locks (self w) !! _proxy_key p) as [b|] eqn:E.
    + rewrite registered_same by done. lia.
    + unfold emit. simpl history. rewrite creations_snoc. simpl.
      f_equal. unfold registered. simpl.
      destruct (decide (_proxy_key p = key)) as [<-|Hne].
      * rewrite bool_decide_eq_true_2 by done. rewrite E.
        rewrite bool_decide_eq_false_2 by (by intros [? ?]).
        by rewrite lookup_insert_eq, bool_decide_eq_true_2.
      * rewrite (bool_decide_eq_false_2 (_proxy_key p = key)) by done.
        by rewrite lookup_insert_ne, andb_negb_l.
  - simpl. rewrite !creations_snoc. simpl.
    rewrite registered_same; [lia|]. simpl.
    rewrite insert_insert_eq. by apply (Hins _ false).
  - simpl. rewrite !creations_snoc. simpl.
    rewrite registered_same; [lia|]. simpl. by apply (Hins _ false).
  - destruct (Hreg p eq_refl) as [b Hb].
    rewrite finish_history, creations_snoc. simpl.
    rewrite registered_same; [lia|]. rewrite finish_locks. by apply (Hins _ b).
Qed.

Lemma apply_creations PW s o s' key :
  consistent s -> apply PW s o = Some s' ->
  creations key (history (mgr s')) =
  (creations key (history (mgr s))
   + if negb (registered (mgr s) key) && registered (mgr s') key
     then 1 else 0)%nat.
Proof.
  intros Hs. destruct o as [l|p|]; simpl.
  - intros (c & r & Hi & Hm & ->)%resume_move.
    apply (move_creations PW _ l c); [done|].
    intros p ->. rewrite (fetching_holds s Hs _ _ Hi). eauto.
  - intros [= <-]. simpl. rewrite invalidate_history.
    rewrite registered_same; [lia|]. by rewrite invalidate_locks.
  - intros [= <-]. simpl. rewrite registered_same; [lia|]. done.
Qed.

Lemma run_ops_creations PW ops : forall s s' key,
  consistent s -> run_ops PW s ops = Some s' ->
  creations key (history (mgr s')) =
  (creations key (history (mgr s))
   + if negb (registered (mgr s) key) && registered (mgr s') key
     then 1 else 0)%nat.
Proof.
  induction ops as [|o ops IH]; intros s s' key Hs; simpl.
  - intros [= <-]. rewrite andb_negb_l. lia.
  - destruct (apply PW s o) as [s1|] eqn:Ho; [|done]. intros Hrun.
    rewrite (IH s1 s' key (consistent_apply _ _ _ _ Hs Ho) Hrun).
    rewrite (apply_creations _ _ _ _ key Hs Ho).
    assert (registered (mgr s) key = true -> registered (mgr s1) key = true)
      as H1.
    { unfold registered. rewrite !bool_decide_eq_true.
      apply (apply_locks_grow PW s o s1 key Ho). }
    assert (registered (mgr s1) key = true -> registered (mgr s') key = true)
      as H2.
    { unfold registered. rewrite !bool_decide_eq_true.
      apply (run_ops_locks_grow PW s1 ops s' key Hrun). }
    destruct (registered (mgr s) key), (registered (mgr s1) key),
      (registered (mgr s') key); simpl; try lia;
      try (by specialize (H1 eq_refl)); try (by specialize (H2 eq_refl)).
Qed.

(** X8.  One lock per key: over any run of the loop with invalidations,
    the lock of a key is created exactly once if the key had no lock at
    the start and has one at the end, and not at all otherwise. *)
Theorem lock_created_once PW s0 ops s key :
  initial s0 -> run_ops PW s0 ops = Some s ->
  creations key (history (mgr s)) =
  (creations key (history (mgr s0))
   + if negb (registered (mgr s0) key) && registered (mgr s) key
     then 1 else 0)%nat.
Proof.
  intros Hinit. apply run_ops_creations. by apply initial_consistent.
Qed.

(** * Further properties of the proxy resolution *)

Section ProxyRoute.
Import ProxyManager.

Lemma global_proxy_Some db url :
  global_proxy db = Some url ->
  ProxyConfig.proxy_enabled (get_proxy_config db) = true ∧
  ProxyConfig.proxy_url (get_proxy_config db) = Some url ∧ url ≠ ""%string.
Proof.
  unfold global_proxy.
  destruct (ProxyConfig.proxy_enabled (get_proxy_config db)); [|done]. simpl.
  destruct (truthy (ProxyConfig.proxy_url (get_proxy_config db))) eqn:Ht;
    [|done].
  intros Hu. rewrite Hu in Ht. by apply truthy_Some in Ht.
Qed.

(** X9.  [get_proxy_url] never returns an empty string: its result is
    [None] or a non-empty URL, which is the proxy URL of the token or, with
    the proxy enabled, the URL of the configuration.  So the cache key of
    the resolved route is the URL itself, and ["__no_proxy__"] when there is
    none. *)
Theorem get_proxy_url_never_empty db token_id :
  (forall url,
     get_proxy_url db token_id = Some url ->
     url ≠ ""%string ∧
     ((exists tid token,
         token_id = Some tid ∧ get_token db tid = Some token ∧
         Token.proxy_url token = Some url)
      ∨ (ProxyConfig.proxy_enabled (get_proxy_config db) = true ∧
         ProxyConfig.proxy_url (get_proxy_config db) = Some url))) ∧
  truthy (get_proxy_url db token_id)
    = bool_decide (is_Some (get_proxy_url db token_id)) ∧
  _proxy_key (get_proxy_url db token_id)
    = default "__no_proxy__"%string (get_proxy_url db token_id).
Proof.
  assert (forall url, get_proxy_url db token_id = Some url ->
     url ≠ ""%string ∧
     ((exists tid token,
         token_id = Some tid ∧ get_token db tid = Some token ∧
         Token.proxy_url token = Some url)
      ∨ (ProxyConfig.proxy_enabled (get_proxy_config db) = true ∧
         ProxyConfig.proxy_url (get_proxy_config db) = Some url))) as H.
  { intros url. unfold get_proxy_url.
    destruct token_id as [tid|];
      [|by intros (? & ? & ?)%global_proxy_Some; eauto].
    destruct (get_token db tid) as [token|] eqn:Hg;
      [|by intros (? & ? & ?)%global_proxy_Some; eauto].
    destruct (truthy (Token.proxy_url token)) eqn:Ht;
      [|by intros (? & ? & ?)%global_proxy_Some; eauto].
    intros Hu. rewrite Hu in Ht. apply truthy_Some in Ht.
    split; [done|]. left. by exists tid, token. }
  split; [done|].
  destruct (get_proxy_url db token_id) as [url|] eqn:E; [|done].
  destruct (H url eq_refl) as [Hne _].
  apply truthy_Some in Hne as Ht. rewrite Ht, (_proxy_key_Some _ Hne).
  split; [|done]. symmetry. apply bool_decide_eq_true. eauto.
Qed.

End ProxyRoute.

Import Browser.

(** * The browser *)

Section FetchFacts.

Context (PW : bool) (lower : string -> string) (env : session).

Lemma poll_unfold fuel k waited s :
  poll lower env (S fuel) k waited s =
  if (waited <? max_wait)%Z then
    match poll_cookies env k with
    | None => (Raise, log (Cookies SORA) s)
    | Some cookies_list =>
        if has_cf_clearance cookies_list then (Ok true, log (Cookies SORA) s)
        else
          if match poll_title env k with
             | Some title => past_challenge lower title
             | None => false
             end
          then (Ok true, log Title (log (Cookies SORA) s))
          else poll lower env fuel (S k) (waited + poll_interval)%Z
                 (log (Sleep poll_interval) (log Title (log (Cookies SORA) s)))
    end
  else (Ok false, s).
Proof.
  simpl. destruct (waited <? max_wait)%Z; [|done].
  unfold mbind, M_bind, call, attempt, mret, M_ret.
  destruct (poll_cookies env k) as [l|]; [|done].
  destruct (has_cf_clearance l); [done|].
  destruct (poll_title env k) as [t|]; [|done].
  by destruct (past_challenge lower t).
Qed.

Lemma poll_quiet fuel k waited s :
  (waited <? max_wait)%Z = true -> quiet lower env k = true ->
  poll lower env (S fuel) k waited s =
  poll lower env fuel (S k) (waited + poll_interval)%Z
       (Frame (trace s ++ full_round) (pw s) (browser s)).
Proof.
  intros Hw Hq. rewrite poll_unfold, Hw. unfold quiet in Hq.
  destruct (poll_cookies env k) as [l|]; [|done].
  apply andb_true_iff in Hq as [->%negb_true_iff ->%negb_true_iff].
  unfold log, full_round. simpl. by rewrite <- !app_assoc.
Qed.

(** The loop is left by its condition, not by the fuel: more fuel than
    the rounds that are left changes nothing. *)
Lemma poll_fuel fuel : forall n k waited s,
  (max_wait - waited <= poll_interval * Z.of_nat fuel)%Z ->
  poll lower env (fuel + n)%nat k waited s = poll lower env fuel k waited s.
Proof.
  induction fuel as [|fuel IH]; intros n k waited s Hw.
  - destruct n as [|n]; [done|]. simpl plus. rewrite poll_unfold.
    unfold max_wait, poll_interval in *.
    by rewrite (proj2 (Z.ltb_ge _ _)) by lia.
  - simpl plus. rewrite !poll_unfold.
    destruct (waited <? max_wait)%Z; [|done].
    destruct (poll_cookies env k) as [l|]; [|done].
    destruct (has_cf_clearance l); [done|].
    destruct (match poll_title env k with
              | Some title => past_challenge lower title
              | None => false
              end); [done|].
    apply IH. unfold poll_interval in *. lia.
Qed.

(** What the loop adds to the frame: only reads of the cookies, reads of
    the title and sleeps of [poll_interval], and no sleep that would start
    at or after [max_wait]. *)
Lemma poll_frame fuel : forall k waited s,
  let r := poll lower env fuel k waited s in
  pw r.2 = pw s ∧ browser r.2 = browser s ∧
  exists t,
    trace r.2 = trace s ++ t ∧
    closes_browser t = false ∧ stops_playwright t = false ∧
    exists n, sleeps t = replicate n poll_interval ∧
              (waited < max_wait -> waited + poll_interval * Z.of_nat n
                                    < max_wait + poll_interval)%Z ∧
              (max_wait <= waited -> n = 0%nat)%Z.
Proof.
  induction fuel as [|fuel IH]; intros k waited s.
  { simpl. repeat split. exists []. rewrite app_nil_r. repeat split.
    exists 0%nat. repeat split. unfold poll_interval. lia. }
  intros r. subst r. rewrite poll_unfold.
  destruct (waited <? max_wait)%Z eqn:Hw.
  2: { simpl. repeat split. exists []. rewrite app_nil_r. repeat split.
       exists 0%nat. repeat split. unfold poll_interval. lia. }
  apply Z.ltb_lt in Hw.
  assert (forall t, closes_browser t = false -> stops_playwright t = false ->
            sleeps t = [] ->
            exists t', trace s ++ t = trace s ++ t' ∧
              closes_browser t' = false ∧ stops_playwright t' = false ∧
              exists n, sleeps t' = replicate n poll_interval ∧
                (waited < max_wait -> waited + poll_interval * Z.of_nat n
                                      < max_wait + poll_interval)%Z ∧
                (max_wait <= waited -> n = 0%nat)%Z) as Hstop.
  { intros t H1 H2 H3. exists t. repeat split; try done.
    exists 0%nat. rewrite H3. repeat split. unfold poll_interval. lia. }
  destruct (poll_cookies env k) as [l|];
    [|simpl; repeat split; by apply (Hstop [Cookies SORA])].
  destruct (has_cf_clearance l);
    [simpl; repeat split; by apply (Hstop [Cookies SORA])|].
  destruct (match poll_title env k with
            | Some title => past_challenge lower title
            | None => false
            end).
  { simpl. repeat split. rewrite <- app_assoc.
    by apply (Hstop [Cookies SORA; Title]). }
  specialize (IH (S k) (waited + poll_interval)%Z
                (log (Sleep poll_interval) (log Title (log (Cookies SORA) s)))).
  destruct IH as (Hpw & Hbr & t & Ht & Hc & Hp & n & Hn & Hlt & Hge).
  split; [done|]. split; [done|].
  exists (full_round ++ t). split.
  { rewrite Ht. unfold log, full_round. simpl. by rewrite <- !app_assoc. }
  split; [done|]. split; [done|].
  exists (S n). split; [simpl; by rewrite Hn|].
  unfold max_wait, poll_interval in *. split; [|lia].
  intros _. destruct (decide (waited + 2 < 60)%Z) as [Hlt'|Hge'].
  - specialize (Hlt Hlt'). lia.
  - rewrite Hge by lia. lia.
Qed.

(** The function, path by path. *)
Lemma fetch_unfold proxy_url :
  _fetch_cookies_via_browser PW lower env proxy_url =
  let launch := Launch (if truthy proxy_url then proxy_url else None) in
  if negb PW then (None, [])
  else if negb (start_ok env) then (None, [PwStart])
  else if negb (launch_ok env) then (None, [PwStart; launch; PwStop])
  else if negb (new_context_ok env)
  then (None, [PwStart; launch; NewContext _DEFAULT_UA; BrowserClose; PwStop])
  else if negb (new_page_ok env)
  then (None, [PwStart; launch; NewContext _DEFAULT_UA; NewPage;
               BrowserClose; PwStop])
  else
    match poll lower env 30 0 0 (Frame (setup proxy_url) true true) with
    | (Raise, s) => (None, trace s ++ [BrowserClose; PwStop])
    | (Ok found, s) =>
        match all_cookies env with
        | None => (None, trace s ++ [Cookies SORA; BrowserClose; PwStop])
        | Some cs =>
            if negb found && bool_decide (to_dict cs = ∅)
            then (None, trace s ++ [Cookies SORA])
            else if negb (context_close_ok env)
            then (None, trace s ++ [Cookies SORA; ContextClose;
                                    BrowserClose; PwStop])
            else if negb (browser_close_ok env)
            then (None, trace s ++ [Cookies SORA; ContextClose; BrowserClose;
                                    BrowserClose; PwStop])
            else if negb (pw_stop_ok env)
            then (None, trace s ++ [Cookies SORA; ContextClose; BrowserClose;
                                    PwStop; BrowserClose; PwStop])
            else (Some (to_dict cs, _DEFAULT_UA),
                  trace s ++ [Cookies SORA; ContextClose; BrowserClose; PwStop])
        end
    end.
Proof.
  unfold _fetch_cookies_via_browser, session_body.
  remember (poll lower env 30 0 0) as P eqn:HP.
  unfold mbind, M_bind, call, attempt, mret, M_ret, raise, set_pw,
    set_browser, cleanup, log, ok, setup.
  destruct PW; [|done]. simpl.
  destruct (start_ok env); [|done]. simpl.
  destruct (launch_ok env); [|done]. simpl.
  destruct (new_context_ok env); [|done]. simpl.
  destruct (new_page_ok env); [|done]. simpl.
  destruct (goto_ok env); simpl;
    (destruct (P (Frame _ true true)) as [[found|] s] eqn:Hs;
     pose proof (poll_frame 30 0 0 (Frame (setup proxy_url) true true)) as Hf;
     rewrite <- HP in Hf; unfold setup in Hf; rewrite Hs in Hf; simpl in Hf;
     destruct Hf as (Hpw & Hbr & _);
     [|by rewrite Hpw, Hbr; simpl; rewrite <- app_assoc];
     destruct (all_cookies env) as [cs|]; simpl;
     [|by rewrite Hpw, Hbr; simpl; rewrite <- !app_assoc];
     destruct (negb found && bool_decide (to_dict cs = ∅)); [done|];
     destruct (context_close_ok env); simpl;
     [|by rewrite Hpw, Hbr; simpl; rewrite <- !app_assoc];
     destruct (browser_close_ok env); simpl;
     [|by rewrite Hpw, Hbr; simpl; rewrite <- !app_assoc];
     destruct (pw_stop_ok env); simpl;
     [|by rewrite Hpw, Hbr; simpl; rewrite <- !app_assoc];
     by rewrite <- !app_assoc).
Qed.


Lemma sleeps_app t t' : sleeps (t ++ t') = sleeps t ++ sleeps t'.
Proof. apply omap_app. Qed.

Lemma closes_browser_app t t' :
  closes_browser (t ++ t') = closes_browser t || closes_browser t'.
Proof. apply existsb_app. Qed.

Lemma stops_playwright_app t t' :
  stops_playwright (t ++ t') = stops_playwright t || stops_playwright t'.
Proof. apply existsb_app. Qed.

(** The frame the loop starts from and what it adds. *)
Lemma poll_setup proxy_url :
  let r := poll lower env 30 0 0 (Frame (setup proxy_url) true true) in
  exists t n,
    trace r.2 = setup proxy_url ++ t ∧
    closes_browser t = false ∧ stops_playwright t = false ∧
    sleeps t = replicate n poll_interval ∧ (n <= 30)%nat.
Proof.
  intros r.
  destruct (poll_frame 30 0 0 (Frame (setup proxy_url) true true))
    as (_ & _ & t & Ht & Hc & Hs & n & Hn & Hlt & _).
  exists t, n. repeat split; try done.
  unfold max_wait, poll_interval in Hlt. lia.
Qed.


(** [n] quiet rounds in a row. *)
Lemma poll_rounds n : forall fuel k s,
  (forall j, (k <= j < k + n)%nat -> quiet lower env j = true) ->
  (2 * Z.of_nat (k + n) <= max_wait)%Z ->
  poll lower env (n + fuel) k (2 * Z.of_nat k) s =
  poll lower env fuel (k + n) (2 * Z.of_nat (k + n))
       (Frame (trace s ++ concat (replicate n full_round)) (pw s) (browser s)).
Proof.
  induction n as [|n IH]; intros fuel k s Hq Hw.
  - simpl. rewrite Nat.add_0_r, app_nil_r. by destruct s.
  - simpl plus. rewrite poll_quiet.
    + replace (2 * Z.of_nat k + poll_interval)%Z with (2 * Z.of_nat (S k))%Z
        by (unfold poll_interval; lia).
      rewrite IH.
      * simpl. rewrite <- app_assoc.
        by replace (S (k + n))%nat with (k + S n)%nat by lia.
      * intros j Hj. apply Hq. lia.
      * by replace (S k + n)%nat with (k + S n)%nat by lia.
    + apply Z.ltb_lt. unfold max_wait in *. lia.
    + apply Hq. lia.
Qed.

(** The loop ends without a sign only when every round was quiet. *)
Lemma poll_false fuel : forall k s s',
  poll lower env fuel k (2 * Z.of_nat k) s = (Ok false, s') ->
  (30 <= k + fuel)%nat ->
  forall j, (k <= j < 30)%nat -> quiet lower env j = true.
Proof.
  induction fuel as [|fuel IH]; intros k s s' Hp Hf j Hj; [lia|].
  rewrite poll_unfold in Hp.
  destruct (2 * Z.of_nat k <? max_wait)%Z eqn:Hw.
  2: { apply Z.ltb_ge in Hw. unfold max_wait in Hw. lia. }
  destruct (poll_cookies env k) as [l|] eqn:Hc; [|done].
  destruct (has_cf_clearance l) eqn:Hcf; [done|].
  destruct (match poll_title env k with
            | Some title => past_challenge lower title
            | None => false
            end) eqn:Ht; [done|].
  destruct (decide (j = k)) as [->|Hne].
  - unfold quiet. by rewrite Hc, Hcf, Ht.
  - replace (2 * Z.of_nat k + poll_interval)%Z with (2 * Z.of_nat (S k))%Z in Hp
      by (unfold poll_interval; lia).
    apply (IH (S k) _ _ Hp); lia.
Qed.

Lemma forallb_quiet :
  forallb (quiet lower env) (seq 0 30) = true <->
  forall j, (j < 30)%nat -> quiet lower env j = true.
Proof.
  rewrite forallb_forall. split.
  - intros H j Hj. apply H, in_seq. lia.
  - intros H j Hj%in_seq. apply H. lia.
Qed.

(** After thirty quiet rounds the loop gives up. *)
Lemma poll_timeout s :
  forallb (quiet lower env) (seq 0 30) = true ->
  poll lower env 30 0 0 s =
  (Ok false,
   Frame (trace s ++ concat (replicate 30 full_round)) (pw s) (browser s)).
Proof.
  intros Hq. pose proof (proj1 forallb_quiet Hq) as Hall. clear Hq.
  change (poll lower env 30 0 0 s)
    with (poll lower env (30 + 0) 0 (2 * Z.of_nat 0) s).
  rewrite poll_rounds; [done| |done].
  intros j Hj. apply Hall. lia.
Qed.

End FetchFacts.

(** X10.  An exception before the loop is turned into [None], and the
    handler closes exactly what was opened: nothing when playwright is
    missing or cannot start, playwright alone when the launch fails, the
    browser and playwright when the context or the page cannot be
    created. *)
Theorem fetch_setup_failure PW lower env proxy_url :
  let fetch := _fetch_cookies_via_browser PW lower env proxy_url in
  let launch := Launch (if truthy proxy_url then proxy_url else None) in
  (PW = false -> fetch = (None, [])) ∧
  (PW = true -> start_ok env = false -> fetch = (None, [PwStart])) ∧
  (PW = true -> start_ok env = true -> launch_ok env = false ->
   fetch = (None, [PwStart; launch; PwStop])) ∧
  (PW = true -> start_ok env = true -> launch_ok env = true ->
   new_context_ok env = false ->
   fetch = (None, [PwStart; launch; NewContext _DEFAULT_UA;
                   BrowserClose; PwStop])) ∧
  (PW = true -> start_ok env = true -> launch_ok env = true ->
   new_context_ok env = true -> new_page_ok env = false ->
   fetch = (None, [PwStart; launch; NewContext _DEFAULT_UA; NewPage;
                   BrowserClose; PwStop])).
Proof.
  intros fetch launch. subst fetch launch. rewrite fetch_unfold.
  repeat split; repeat (intros ->; simpl); done.
Qed.

(** X11.  The loop sleeps [poll_interval] seconds at a time and at most
    thirty times: the function never waits more than [max_wait] seconds
    for the challenge.  The bound is that of line 146, not of the fuel of
    the model. *)
Theorem fetch_waits_at_most_max_wait PW lower env proxy_url :
  (exists n,
     sleeps (_fetch_cookies_via_browser PW lower env proxy_url).2
       = replicate n poll_interval ∧
     (poll_interval * Z.of_nat n <= max_wait)%Z) ∧
  (forall n s, poll lower env (30 + n) 0 0 s = poll lower env 30 0 0 s).
Proof.
  split.
  2: { intros n s. apply poll_fuel. unfold max_wait, poll_interval. lia. }
  rewrite fetch_unfold.
  assert (exists n, @nil Z = replicate n poll_interval ∧
                    (poll_interval * Z.of_nat n <= max_wait)%Z) as Hnil
    by (exists 0%nat; split; [done|unfold poll_interval, max_wait; lia]).
  cbv zeta.
  destruct (negb PW); [done|]. destruct (negb (start_ok env)); [done|].
  destruct (negb (launch_ok env)); [done|].
  destruct (negb (new_context_ok env)); [done|].
  destruct (negb (new_page_ok env)); [done|].
  pose proof (poll_setup lower env proxy_url) as Hps. cbv zeta in Hps.
  destruct (poll lower env 30 0 0 (Frame (setup proxy_url) true true))
    as [o s].
  destruct Hps as (t & n & Ht & _ & _ & Hn & Hle). cbn [snd] in Ht.
  assert (forall tail, sleeps tail = [] ->
            exists n0,
              sleeps (trace s ++ tail) = replicate n0 poll_interval ∧
              (poll_interval * Z.of_nat n0 <= max_wait)%Z) as Htail.
  { intros tail Htl. exists n. rewrite Ht, !sleeps_app, Hn, Htl.
    split; [by rewrite app_nil_r|]. unfold poll_interval, max_wait. lia. }
  clear Ht.
  destruct o as [found|]; [|by apply Htail].
  destruct (all_cookies env) as [cs|]; [|by apply Htail].
  destruct (negb found && bool_decide (to_dict cs = ∅)); [by apply Htail|].
  destruct (negb (context_close_ok env)); [by apply Htail|].
  destruct (negb (browser_close_ok env)); [by apply Htail|].
  destruct (negb (pw_stop_ok env)); by apply Htail.
Qed.

(** X12.  A result is the snapshot of line 170 with the user agent of the
    browser, and it is only returned when every call up to the loop and
    every call that closes the session went through. *)
Theorem fetch_success_shape PW lower env proxy_url cookies ua t :
  _fetch_cookies_via_browser PW lower env proxy_url = (Some (cookies, ua), t) ->
  ua = _DEFAULT_UA ∧
  (exists cs t0,
     all_cookies env = Some cs ∧ cookies = to_dict cs ∧
     t = setup proxy_url ++ t0 ++ harvest ∧
     closes_browser t0 = false ∧ stops_playwright t0 = false) ∧
  PW = true ∧ start_ok env = true ∧ launch_ok env = true ∧
  new_context_ok env = true ∧ new_page_ok env = true ∧
  context_close_ok env = true ∧ browser_close_ok env = true ∧
  pw_stop_ok env = true.
Proof.
  rewrite fetch_unfold. cbv zeta.
  pose proof (poll_setup lower env proxy_url) as Hps. cbv zeta in Hps.
  destruct (poll lower env 30 0 0 (Frame (setup proxy_url) true true))
    as [o s].
  destruct Hps as (t0 & n & Ht & Hc & Hs & _ & _). cbn [snd] in Ht.
  destruct PW; [|done]. destruct (start_ok env); [|done].
  destruct (launch_ok env); [|done]. destruct (new_context_ok env); [|done].
  destruct (new_page_ok env); [|done]. simpl.
  destruct o as [found|]; [|done].
  destruct (all_cookies env) as [cs|]; [|done].
  destruct (negb found && bool_decide (to_dict cs = ∅)); [done|].
  destruct (context_close_ok env); [|done].
  destruct (browser_close_ok env); [|done].
  destruct (pw_stop_ok env); [|done]. simpl.
  intros [= <- <- <-]. repeat split.
  exists cs, t0. rewrite Ht, <- app_assoc. done.
Qed.

Lemma to_dict_snoc cs c : to_dict (cs ++ [c]) = <[c.1 := c.2]> (to_dict cs).
Proof. unfold to_dict. by rewrite foldl_app. Qed.

Lemma to_dict_empty cs : to_dict cs = ∅ <-> cs = [].
Proof.
  split; [|by intros ->].
  destruct cs as [|c cs _] using rev_ind; [done|].
  rewrite to_dict_snoc. intros H.
  by apply insert_non_empty in H.
Qed.

(** X18.  The dictionary of lines 171-173 keeps, for every name, the value
    of the last cookie of that name, and it is empty only when there is no
    cookie at all. *)
Theorem to_dict_last_wins cs name :
  to_dict cs !! name = snd <$> last (filter (fun c => c.1 = name) cs) ∧
  (to_dict cs = ∅ <-> cs = []).
Proof.
  split; [|apply to_dict_empty].
  induction cs as [|c cs IH] using rev_ind; [done|].
  rewrite to_dict_snoc, filter_app, filter_cons, filter_nil.
  destruct (decide (c.1 = name)) as [Hc|Hc].
  - rewrite last_snoc. simpl. rewrite <- Hc. apply lookup_insert_eq.
  - rewrite app_nil_r, lookup_insert_ne by done. apply IH.
Qed.

(** X13.  Once the browser is launched, the function closes it and stops
    playwright before it returns, whether by the calls of lines 184-185 or
    by the handler, with one exception: the return of line 179.  There the
    loop has given up after thirty quiet rounds, the snapshot is empty, the
    result is [None], and neither the browser is closed nor playwright
    stopped. *)
Theorem fetch_closes_browser lower env proxy_url :
  start_ok env = true -> launch_ok env = true ->
  let r := _fetch_cookies_via_browser true lower env proxy_url in
  (closes_browser r.2 = true ∧ stops_playwright r.2 = true)
  ∨ (r.1 = None ∧ closes_browser r.2 = false ∧ stops_playwright r.2 = false ∧
     new_context_ok env = true ∧ new_page_ok env = true ∧
     forallb (quiet lower env) (seq 0 30) = true ∧
     all_cookies env = Some []).
Proof.
  intros Hstart Hlaunch r. subst r. rewrite fetch_unfold. cbv zeta.
  rewrite Hstart, Hlaunch.
  pose proof (poll_setup lower env proxy_url) as Hps. cbv zeta in Hps.
  pose proof (poll_false lower env 30 0 (Frame (setup proxy_url) true true))
    as Hpf.
  change (2 * Z.of_nat 0)%Z with 0%Z in Hpf.
  destruct (poll lower env 30 0 0 (Frame (setup proxy_url) true true))
    as [o s].
  destruct Hps as (t0 & n & Ht & Hc & Hs & _ & _). cbn [snd] in Ht.
  assert (closes_browser (setup proxy_url) = false) as Hc0 by done.
  assert (stops_playwright (setup proxy_url) = false) as Hs0 by done.
  assert (forall tail, closes_browser tail = true ->
                       stops_playwright tail = true ->
            closes_browser (trace s ++ tail) = true ∧
            stops_playwright (trace s ++ tail) = true) as Hclosed.
  { intros tail H1 H2.
    by rewrite closes_browser_app, stops_playwright_app, H1, H2, !orb_true_r. }
  cbn [negb].
  destruct (new_context_ok env); [|by left].
  destruct (new_page_ok env); [|by left]. cbn [negb].
  destruct o as [found|]; [|left; by apply Hclosed].
  destruct (all_cookies env) as [cs|]; [|left; by apply Hclosed].
  destruct (negb found && bool_decide (to_dict cs = ∅)) eqn:Hleak.
  - right. apply andb_true_iff in Hleak as [->%negb_true_iff Hd].
    apply bool_decide_eq_true, to_dict_empty in Hd as ->. cbn [fst snd].
    rewrite closes_browser_app, stops_playwright_app, Ht,
      closes_browser_app, stops_playwright_app, Hc, Hs, Hc0, Hs0.
    repeat split.
    apply forallb_quiet. intros j Hj. apply (Hpf s eq_refl); lia.
  - left. destruct (context_close_ok env); [|by apply Hclosed].
    destruct (browser_close_ok env); [|by apply Hclosed].
    destruct (pw_stop_ok env); by apply Hclosed.
Qed.

(** X14.  When no round shows [cf_clearance] or a title past the challenge
    and the snapshot has a cookie, the function has slept thirty times and
    returns the snapshot all the same, provided the session closes. *)
Theorem fetch_timeout_returns_snapshot lower env proxy_url cs :
  start_ok env = true -> launch_ok env = true ->
  new_context_ok env = true -> new_page_ok env = true ->
  forallb (quiet lower env) (seq 0 30) = true ->
  all_cookies env = Some cs -> cs ≠ [] ->
  context_close_ok env = true -> browser_close_ok env = true ->
  pw_stop_ok env = true ->
  _fetch_cookies_via_browser true lower env proxy_url =
  (Some (to_dict cs, _DEFAULT_UA),
   setup proxy_url ++ concat (replicate 30 full_round) ++ harvest).
Proof.
  intros H1 H2 H3 H4 Hq Hcs Hne H5 H6 H7.
  rewrite fetch_unfold. cbv zeta.
  rewrite H1, H2, H3, H4, H5, H6, H7, Hcs, (poll_timeout lower env _ Hq).
  cbn [negb trace].
  rewrite bool_decide_eq_false_2 by (by rewrite to_dict_empty).
  by rewrite andb_false_r, <- app_assoc.
Qed.

(** X15.  The loop stops at the first round that shows [cf_clearance] or a
    title past the challenge, after one sleep for each round before it.
    The result is then the snapshot of line 170, whatever it holds: after
    a sign by the title alone it may be the empty dictionary. *)
Theorem fetch_stops_at_first_sign lower env proxy_url n cookies_list cs :
  start_ok env = true -> launch_ok env = true ->
  new_context_ok env = true -> new_page_ok env = true ->
  (n < 30)%nat -> forallb (quiet lower env) (seq 0 n) = true ->
  poll_cookies env n = Some cookies_list -> quiet lower env n = false ->
  all_cookies env = Some cs ->
  context_close_ok env = true -> browser_close_ok env = true ->
  pw_stop_ok env = true ->
  _fetch_cookies_via_browser true lower env proxy_url =
  (Some (to_dict cs, _DEFAULT_UA),
   setup proxy_url ++ concat (replicate n full_round)
     ++ (if has_cf_clearance cookies_list then [Cookies SORA]
         else [Cookies SORA; Title])
     ++ harvest).
Proof.
  intros H1 H2 H3 H4 Hn Hq Hc Hsign Hcs H5 H6 H7.
  assert (forall s,
    poll lower env 30 0 0 s =
    (Ok true,
     Frame (trace s ++ concat (replicate n full_round)
              ++ (if has_cf_clearance cookies_list then [Cookies SORA]
                  else [Cookies SORA; Title]))
           (pw s) (browser s))) as Hpoll.
  { intros s.
    replace 30%nat with (n + S (29 - n))%nat at 1 by lia.
    change 0%Z with (2 * Z.of_nat 0)%Z.
    rewrite poll_rounds.
    - rewrite poll_unfold. simpl plus.
      rewrite (proj2 (Z.ltb_lt _ _)) by (unfold max_wait; lia).
      rewrite Hc. unfold quiet in Hsign. rewrite Hc in Hsign.
      unfold log. simpl.
      destruct (has_cf_clearance cookies_list); simpl in *.
      + by rewrite <- app_assoc.
      + apply negb_false_iff in Hsign. rewrite Hsign.
        by rewrite <- !app_assoc.
    - intros j Hj. rewrite forallb_forall in Hq. apply Hq, in_seq. lia.
    - unfold max_wait. lia. }
  rewrite fetch_unfold. cbv zeta.
  rewrite H1, H2, H3, H4, H5, H6, H7, Hcs, Hpoll.
  cbn [negb trace andb]. by rewrite <- !app_assoc.
Qed.

Lemma poll_forgiving lower env goto fuel : forall k waited s,
  poll lower (forgiving env goto) fuel k waited s
  = poll lower env fuel k waited s.
Proof.
  induction fuel as [|fuel IH]; intros k waited s; [done|].
  rewrite !poll_unfold. simpl poll_cookies. simpl poll_title.
  destruct (waited <? max_wait)%Z; [|done].
  destruct (poll_cookies env k) as [l|]; [|done].
  destruct (has_cf_clearance l); [done|].
  destruct (poll_title env k) as [t|]; simpl; [by rewrite IH|].
  by rewrite IH.
Qed.

(** X16.  Two exceptions are passed over.  Whether the navigation of line
    128 raises makes no difference to the result nor to the calls that
    follow, and a title that cannot be read counts as the empty title: the
    round goes on to the sleep. *)
Theorem fetch_passes_over_page_errors PW lower env goto proxy_url :
  _fetch_cookies_via_browser PW lower (forgiving env goto) proxy_url
  = _fetch_cookies_via_browser PW lower env proxy_url.
Proof. rewrite !fetch_unfold. cbv zeta. by rewrite poll_forgiving. Qed.

Lemma launch_proxy_key p q :
  _proxy_key p = _proxy_key q ->
  p ≠ Some "__no_proxy__"%string -> q ≠ Some "__no_proxy__"%string ->
  (if truthy p then p else None) = (if truthy q then q else None).
Proof.
  assert (forall p, p ≠ Some "__no_proxy__"%string ->
            (truthy p = false ∧ _proxy_key p = "__no_proxy__"%string)
            ∨ (exists s, p = Some s ∧ truthy p = true ∧ _proxy_key p = s
                         ∧ s ≠ "__no_proxy__"%string)) as Hcases.
  { intros [s|] Hp; [|by left].
    destruct (decide (s = ""%string)) as [->|Hs]; [by left|].
    right. exists s. apply truthy_Some in Hs as Ht.
    rewrite (_proxy_key_Some _ Hs). repeat split; try done. congruence. }
  intros Hk Hp Hq.
  destruct (Hcases p Hp) as [[-> Hkp]|(s & -> & -> & Hkp & Hs)],
    (Hcases q Hq) as [[-> Hkq]|(s' & -> & -> & Hkq & Hs')]; try congruence.
Qed.

(** X17.  Calls that share a cache key drive the browser through the same
    route: for two proxies with the same key, neither of them the string
    ["__no_proxy__"], the function makes the same calls and returns the
    same result.  No proxy and the empty proxy both launch the browser
    without proxy. *)
Theorem fetch_same_key_same_route PW lower env p q :
  _proxy_key p = _proxy_key q ->
  p ≠ Some "__no_proxy__"%string -> q ≠ Some "__no_proxy__"%string ->
  _fetch_cookies_via_browser PW lower env p
  = _fetch_cookies_via_browser PW lower env q.
Proof.
  intros Hk Hp Hq. rewrite !fetch_unfold. unfold setup.
  by rewrite (launch_proxy_key p q Hk Hp Hq).
Qed.

Lemma fetch_agent PW lower env proxy_url cookies ua :
  (_fetch_cookies_via_browser PW lower env proxy_url).1 = Some (cookies, ua) ->
  ua = _DEFAULT_UA.
Proof.
  rewrite fetch_unfold. cbv zeta.
  destruct (poll lower env 30 0 0 (Frame (setup proxy_url) true true))
    as [o s].
  destruct (negb PW); [done|]. destruct (negb (start_ok env)); [done|].
  destruct (negb (launch_ok env)); [done|].
  destruct (negb (new_context_ok env)); [done|].
  destruct (negb (new_page_ok env)); [done|].
  destruct o as [found|]; [|done].
  destruct (all_cookies env) as [cs|]; [|done].
  destruct (negb found && bool_decide (to_dict cs = ∅)); [done|].
  destruct (negb (context_close_ok env)); [done|].
  destruct (negb (browser_close_ok env)); [done|].
  destruct (negb (pw_stop_ok env)); [done|].
  by intros [= _ <-].
Qed.

Lemma agent_kept_cache w w' :
  _cache (self w') = _cache (self w) -> agent_kept w -> agent_kept w'.
Proof. unfold agent_kept. by intros ->. Qed.

(** X19.  With the browser behind [get_cookies], the cache keeps an
    invariant: if every entry carries [_DEFAULT_UA], so does every entry
    after the call, and so does whatever the call returns.  The cookies are
    always handed out with the user agent they were obtained with. *)
Theorem user_agent_kept PW lower env w t1 t2 t3 proxy_url force_refresh :
  agent_kept w ->
  let r := get_cookies_in PW lower env w t1 t2 t3 proxy_url force_refresh in
  agent_kept r.1 ∧
  forall cookies ua, r.2 = Returned (Some (cookies, ua)) -> ua = _DEFAULT_UA.
Proof.
  intros Hw r. subst r. unfold get_cookies_in.
  destruct (get_cookies_path PW w
              (Oracle t1 t2 t3
                 (_fetch_cookies_via_browser PW lower env proxy_url).1)
              proxy_url force_refresh)
    as [?|c ua ts ? ? Hc ?|? ? ?|c ua ts ? ? ? Hl Hc ?|? ? Hl ?];
    cbn [fst snd].
  - done.
  - split; [done|]. intros ? ? [= <- <-]. by apply (Hw _ _ _ _ Hc).
  - done.
  - split.
    + apply (agent_kept_cache w); [|done]. simpl. apply _cache_get_lock.
    + intros ? ? [= <- <-]. by apply (Hw _ _ _ _ Hc).
  - cbn [CfCookie.browser t_store].
    destruct (_fetch_cookies_via_browser PW lower env proxy_url).1
      as [[d ua]|] eqn:Hf.
    + apply fetch_agent in Hf as ->. rewrite finish_result. split.
      * intros key c ua ts. rewrite finish_cache. simpl.
        rewrite _cache_get_lock.
        destruct (decide (_proxy_key proxy_url = key)) as [<-|Hne].
        -- rewrite lookup_insert_eq. by intros [= _ <- _].
        -- rewrite lookup_insert_ne by done. apply Hw.
      * by intros ? ? [= _ <-].
    + rewrite finish_result. split; [|done].
      apply (agent_kept_cache w); [|done].
      rewrite finish_cache. simpl. apply _cache_get_lock.
Qed.

(** * The properties on the sample data *)

Lemma invalidate_forces_fetch_witness :
  let o := Oracle 1 1 2 (Some (Sample.fresh, Sample.ua)) in
  let key := _proxy_key Sample.proxy in
  _is_valid (self Demo.warm) 1 key = true ∧
  (get_cookies true (invalidate Demo.warm Sample.proxy) o Sample.proxy false).2
    = Returned (Some (Sample.fresh, Sample.ua)) ∧
  (get_cookies true (invalidate_all Demo.warm) o Sample.proxy false).2
    = Returned (Some (Sample.fresh, Sample.ua)).
Proof.
  split; [reflexivity|].
  destruct (invalidate_forces_fetch Demo.warm
              (Oracle 1 1 2 (Some (Sample.fresh, Sample.ua)))
              Sample.proxy false) as [[_ H1] [_ H2]].
  - vm_compute. discriminate.
  - exact (conj H1 H2).
Defined.

Lemma initial_two_calls : initial Demo.two_calls.
Proof.
  split; [|reflexivity]. intros key. simpl. rewrite lookup_empty. discriminate.
Defined.

Lemma locks_follow_fetches_witness :
  all_finished Demo.raced = true ∧ locks_free (mgr Demo.raced).
Proof.
  split; [reflexivity|].
  apply (locks_follow_fetches true Demo.two_calls Demo.racing Demo.raced
           initial_two_calls); reflexivity.
Defined.

Lemma locks_never_removed_witness :
  is_Some (_locks (self (mgr Demo.refreshed)) !! _proxy_key Sample.proxy).
Proof.
  apply (locks_never_removed true Demo.warm_call Demo.refresh Demo.refreshed).
  - reflexivity.
  - vm_compute. eauto.
Defined.

Lemma lock_created_once_witness :
  creations (_proxy_key Sample.proxy) (history (mgr Demo.raced)) = 1%nat.
Proof.
  apply (lock_created_once true Demo.two_calls Demo.racing Demo.raced
           (_proxy_key Sample.proxy) initial_two_calls).
  reflexivity.
Defined.

Lemma fetch_success_shape_witness :
  (_fetch_cookies_via_browser true Demo.lower (Demo.solved_at 2) Sample.proxy).1
    = Some (to_dict Demo.jar, _DEFAULT_UA) ∧
  start_ok (Demo.solved_at 2) = true ∧ pw_stop_ok (Demo.solved_at 2) = true.
Proof.
  split; [by vm_compute|].
  destruct (fetch_success_shape true Demo.lower (Demo.solved_at 2)
              Sample.proxy (to_dict Demo.jar) _DEFAULT_UA
              (_fetch_cookies_via_browser true Demo.lower (Demo.solved_at 2)
                 Sample.proxy).2)
    as (_ & _ & _ & H1 & _ & _ & _ & _ & _ & H2).
  - by vm_compute.
  - exact (conj H1 H2).
Defined.

Lemma fetch_closes_browser_witness :
  let r := _fetch_cookies_via_browser true Demo.lower Demo.stuck None in
  (closes_browser r.2 = true ∧ stops_playwright r.2 = true)
  ∨ (r.1 = None ∧ closes_browser r.2 = false ∧ stops_playwright r.2 = false ∧
     new_context_ok Demo.stuck = true ∧ new_page_ok Demo.stuck = true ∧
     forallb (quiet Demo.lower Demo.stuck) (seq 0 30) = true ∧
     all_cookies Demo.stuck = Some []).
Proof.
  apply (fetch_closes_browser Demo.lower Demo.stuck None); reflexivity.
Defined.

Lemma fetch_timeout_returns_snapshot_witness :
  _fetch_cookies_via_browser true Demo.lower (Demo.solved_at 30) Sample.proxy =
  (Some (to_dict Demo.jar, _DEFAULT_UA),
   setup Sample.proxy ++ concat (replicate 30 full_round) ++ harvest).
Proof.
  apply (fetch_timeout_returns_snapshot Demo.lower (Demo.solved_at 30)
           Sample.proxy Demo.jar); try reflexivity.
  discriminate.
Defined.

Lemma fetch_stops_at_first_sign_witness :
  _fetch_cookies_via_browser true Demo.lower (Demo.solved_at 2) Sample.proxy =
  (Some (to_dict Demo.jar, _DEFAULT_UA),
   setup Sample.proxy ++ concat (replicate 2 full_round)
     ++ (if has_cf_clearance Demo.jar then [Cookies SORA]
         else [Cookies SORA; Title])
     ++ harvest).
Proof.
  apply (fetch_stops_at_first_sign Demo.lower (Demo.solved_at 2) Sample.proxy
           2 Demo.jar Demo.jar); try reflexivity.
  vm_compute. lia.
Defined.

Lemma fetch_same_key_same_route_witness :
  _fetch_cookies_via_browser true Demo.lower (Demo.solved_at 1) None
  = _fetch_cookies_via_browser true Demo.lower (Demo.solved_at 1)
      (Some ""%string).
Proof.
  apply (fetch_same_key_same_route true Demo.lower (Demo.solved_at 1)
           None (Some ""%string)); [reflexivity|discriminate|discriminate].
Defined.

Lemma agent_kept_warm : agent_kept Demo.warm.
Proof.
  intros key cookies ua ts H. unfold Demo.warm in H. simpl in H.
  apply lookup_singleton_Some in H as [_ H]. by injection H as _ <- _.
Defined.

Lemma user_agent_kept_witness :
  let r := get_cookies_in true Demo.lower (Demo.solved_at 0) Demo.warm
             1 1 2 Sample.proxy true in
  agent_kept r.1 ∧
  forall cookies ua, r.2 = Returned (Some (cookies, ua)) -> ua = _DEFAULT_UA.
Proof.
  apply (user_agent_kept true Demo.lower (Demo.solved_at 0) Demo.warm 1 1 2
           Sample.proxy true agent_kept_warm).
Defined.
